(** * MastersPool: a shallow embedding of the scoring core of
    [streamlit_app.py] (live feed index, [normalize_topar],
    [get_player_score], the team scoring loop and the leaderboard sort).

    Strings are modelled as Rocq [string]s over ASCII: Python's [strip],
    [lower], [upper] and [int] are given their meaning on ASCII
    characters; bytes outside ASCII are neither whitespace, letters nor
    digits.  The page adds the sidebar summary; HTML rendering and the
    HTTP fetch itself are not modelled. *)

From Stdlib Require Import ZArith Lia List Bool Ascii String Sorting.Permutation
  Sorting.Sorted.
Import ListNotations.
Open Scope string_scope.
Open Scope list_scope.
Open Scope Z_scope.

(** ** Characters *)

(** Python's [str.isspace] on ASCII: space, \t \n \v \f \r and the
    separators \x1c .. \x1f. *)
Definition is_space (c : ascii) : bool :=
  let n := nat_of_ascii c in
  (n =? 32)%nat || ((9 <=? n)%nat && (n <=? 13)%nat)
  || ((28 <=? n)%nat && (n <=? 31)%nat).

Definition is_digit (c : ascii) : bool :=
  let n := nat_of_ascii c in ((48 <=? n)%nat && (n <=? 57)%nat).

Definition digit_value (c : ascii) : Z := Z.of_nat (nat_of_ascii c - 48).

Definition digit_char (d : Z) : ascii := ascii_of_nat (48 + Z.to_nat d).

Definition is_alpha (c : ascii) : bool :=
  let n := nat_of_ascii c in
  ((65 <=? n)%nat && (n <=? 90)%nat) || ((97 <=? n)%nat && (n <=? 122)%nat).

Definition lower_char (c : ascii) : ascii :=
  let n := nat_of_ascii c in
  if (65 <=? n)%nat && (n <=? 90)%nat then ascii_of_nat (n + 32) else c.

Definition upper_char (c : ascii) : ascii :=
  let n := nat_of_ascii c in
  if (97 <=? n)%nat && (n <=? 122)%nat then ascii_of_nat (n - 32) else c.

(** ** Python string methods *)

Fixpoint lower (s : string) : string :=
  match s with
  | EmptyString => EmptyString
  | String c s' => String (lower_char c) (lower s')
  end.

Fixpoint upper (s : string) : string :=
  match s with
  | EmptyString => EmptyString
  | String c s' => String (upper_char c) (upper s')
  end.

Fixpoint lstrip (s : string) : string :=
  match s with
  | EmptyString => EmptyString
  | String c s' => if is_space c then lstrip s' else s
  end.

Fixpoint rstrip (s : string) : string :=
  match s with
  | EmptyString => EmptyString
  | String c s' =>
      match rstrip s' with
      | EmptyString => if is_space c then EmptyString else String c EmptyString
      | r => String c r
      end
  end.

(** [str.strip()] with no argument. *)
Definition strip (s : string) : string := rstrip (lstrip s).

(** ** Python's [int(str)] in base 10

    CPython skips surrounding whitespace, accepts one optional sign, then
    decimal digits where single underscores may separate two digits, and
    refuses more than [max_str_digits] digits. *)

Fixpoint digits_aux (s : string) (acc : Z) : option Z :=
  match s with
  | EmptyString => Some acc
  | String c rest =>
      if is_digit c then digits_aux rest (acc * 10 + digit_value c)
      else if Ascii.eqb c "_" then
        match rest with
        | String d rest' =>
            if is_digit d then digits_aux rest' (acc * 10 + digit_value d)
            else None
        | EmptyString => None
        end
      else None
  end.

Definition parse_digits (s : string) : option Z :=
  match s with
  | String c rest => if is_digit c then digits_aux rest (digit_value c) else None
  | EmptyString => None
  end.

(** The whitespace [int()] skips around the number.  For an ASCII string
    CPython's [PyLong_FromString] tests [Py_ISSPACE]: space and
    \t \n \v \f \r only (not the separators \x1c .. \x1f that
    [str.strip] removes). *)
Definition is_int_space (c : ascii) : bool :=
  let n := nat_of_ascii c in
  (n =? 32)%nat || ((9 <=? n)%nat && (n <=? 13)%nat).

Fixpoint int_lstrip (s : string) : string :=
  match s with
  | EmptyString => EmptyString
  | String c s' => if is_int_space c then int_lstrip s' else s
  end.

Fixpoint int_rstrip (s : string) : string :=
  match s with
  | EmptyString => EmptyString
  | String c s' =>
      match int_rstrip s' with
      | EmptyString => if is_int_space c then EmptyString else String c EmptyString
      | r => String c r
      end
  end.

Definition int_strip (s : string) : string := int_rstrip (int_lstrip s).

(** The number of digits of a digit string (underscores not counted). *)
Fixpoint count_digits (s : string) : nat :=
  match s with
  | EmptyString => O
  | String c s' => if is_digit c then S (count_digits s') else count_digits s'
  end.

(** [sys.get_int_max_str_digits()] by default (CPython 3.11 and the
    security releases of 3.7 to 3.10): a decimal string of more digits
    makes [int()] raise [ValueError]. *)
Definition max_str_digits : nat := 4300.

Definition parse_int_body (s : string) : option Z :=
  match parse_digits s with
  | Some v => if (count_digits s <=? max_str_digits)%nat then Some v else None
  | None => None
  end.

(** [int(val)] for a string [val]; [None] stands for the raised
    [ValueError]. *)
Definition py_int (s : string) : option Z :=
  match int_strip s with
  | String c rest =>
      if Ascii.eqb c "-" then option_map Z.opp (parse_int_body rest)
      else if Ascii.eqb c "+" then parse_int_body rest
      else parse_int_body (String c rest)
  | EmptyString => None
  end.

(** [str(n)] for an integer [n]: the decimal digits, with a leading
    minus sign for negative numbers. *)
Fixpoint digits_fuel (fuel : nat) (n : Z) : string :=
  match fuel with
  | O => EmptyString
  | S f =>
      if n <? 10 then String (digit_char n) EmptyString
      else (digits_fuel f (n / 10) ++ String (digit_char (n mod 10)) EmptyString)%string
  end.

Definition py_str (n : Z) : string :=
  if n <? 0 then String "-" (digits_fuel (S (Z.to_nat (- n))) (- n))
  else digits_fuel (S (Z.to_nat n)) n.

(** ** normalize_topar

<<
def normalize_topar(val):
    if val == "E": return 0
    try: return int(val)
    except: return None
>>
    The argument is [p.get("topar")]: [None] when the field is absent,
    and [int(None)] raises a [TypeError] that the bare [except] catches. *)
Definition normalize_topar (val : option string) : option Z :=
  match val with
  | Some s => if String.eqb s "E" then Some 0 else py_int s
  | None => None
  end.

Example normalize_E : normalize_topar (Some "E") = Some 0. Proof. reflexivity. Qed.
Example normalize_neg : normalize_topar (Some "-12") = Some (-12). Proof. reflexivity. Qed.
Example normalize_ws : normalize_topar (Some " +3 ") = Some 3. Proof. reflexivity. Qed.
Example normalize_us : normalize_topar (Some "1_0") = Some 10. Proof. reflexivity. Qed.
Example normalize_bad : normalize_topar (Some "1__0") = None. Proof. reflexivity. Qed.
Example normalize_e : normalize_topar (Some "e") = None. Proof. reflexivity. Qed.
Example py_str_ex : py_str (-305) = "-305". Proof. reflexivity. Qed.

(** ** Feed records and the live index *)

(** One record of the JSON feed; [topar], [status] and [id] are [None]
    when the field is absent. *)
Record player := mkPlayer {
  full_name : string;
  topar : option string;
  status : option string;
  id : option string
}.

(** The JSON envelope: [env_data] is [None] when there is no ["data"] key,
    [Some None] when ["data"] has no ["player"] key; [env_player] is the
    top-level ["player"] list, if any. *)
Record envelope := mkEnvelope {
  env_data : option (option (list player));
  env_player : option (list player)
}.

(** A Python dict with string keys, in insertion order. *)
Definition dict (V : Type) := list (string * V).

(** [d[k] = v]: an existing key keeps its position and gets the new
    value; a new key is appended. *)
Fixpoint dict_set {V} (d : dict V) (k : string) (v : V) : dict V :=
  match d with
  | [] => [(k, v)]
  | (k', v') :: d' =>
      if String.eqb k k' then (k', v) :: d' else (k', v') :: dict_set d' k v
  end.

(** [d.get(k)]. *)
Fixpoint dict_get {V} (d : dict V) (k : string) : option V :=
  match d with
  | [] => None
  | (k', v') :: d' => if String.eqb k k' then Some v' else dict_get d' k
  end.

Definition dict_values {V} (d : dict V) : list V := map snd d.

(** The key of a feed record: [p["full_name"].strip().lower()]. *)
Definition player_key (p : player) : string := lower (strip (full_name p)).

(** [{p["full_name"].strip().lower(): p for p in player_data}]. *)
Definition build_index (l : list player) : dict player :=
  fold_left (fun d p => dict_set d (player_key p) p) l [].

(** The branch on the envelope shape in [fetch_live_scores]. *)
Definition feed_players (env : envelope) : option (list player) :=
  match env_data env with
  | Some (Some l) => Some l
  | _ => env_player env
  end.

(** [fetch_live_scores()] after [res.json()]: [{}] for an unrecognised
    envelope. *)
Definition fetch_live_scores (env : envelope) : dict player :=
  match feed_players env with
  | Some l => build_index l
  | None => []
  end.

(** ** get_player_score

<<
def get_player_score(name, data):
    key = name.strip().lower()
    p = data.get(key)
    if not p:
        return None, "NOT FOUND"
    status = p.get("status", "OK")
    topar = p.get("topar")
    return normalize_topar(topar), status, p.get("id")
>>
    The two return shapes are kept apart: a pair on the not-found path, a
    triple otherwise.  A feed record always holds ["full_name"], so it is
    a non-empty dict and [not p] holds only when the lookup fails. *)
Inductive lookup_ret :=
| Ret2 (score : option Z) (st : string)
| Ret3 (score : option Z) (st : string) (pid : option string).

Definition get_player_score (name : string) (data : dict player) : lookup_ret :=
  let key := lower (strip name) in
  match dict_get data key with
  | None => Ret2 None "NOT FOUND"
  | Some p =>
      Ret3 (normalize_topar (topar p))
           (match status p with Some s => s | None => "OK" end)
           (id p)
  end.

(** ** Errors and results of a refresh cycle *)

(** [StStop msg]: [st.error(msg)] followed by [st.stop()];
    [ValueError msg]: an uncaught Python [ValueError] that ends the
    script run. *)
Inductive py_error :=
| StStop (msg : string)
| ValueError (msg : string).

Inductive result (A : Type) :=
| Ok (a : A)
| Err (e : py_error).
Arguments Ok {A} a.
Arguments Err {A} e.

Definition bind {A B} (m : result A) (k : A -> result B) : result B :=
  match m with
  | Ok a => k a
  | Err e => Err e
  end.

Notation "x <- m ;; k" := (bind m (fun x => k))
  (at level 61, m at next level, right associativity).

(** A Python [for] loop whose body may raise: the first exception ends
    the loop. *)
Fixpoint mapM {A B} (f : A -> result B) (l : list A) : result (list B) :=
  match l with
  | [] => Ok []
  | x :: xs => y <- f x ;; ys <- mapM f xs ;; Ok (y :: ys)
  end.

Definition unpack_error : py_error :=
  ValueError "not enough values to unpack (expected 3, got 2)".

Definition max_empty_error : py_error :=
  ValueError "max() arg is an empty sequence".

Definition fetch_error : py_error := StStop "Could not fetch live Masters data.".

(** ** Worst score

<<
worst_score = max([
    normalize_topar(p.get("topar"))
    for p in live_data.values()
    if normalize_topar(p.get("topar")) is not None
])
>>
    [None] stands for the [ValueError] of [max] on an empty list. *)
Fixpoint keep_some (l : list (option Z)) : list Z :=
  match l with
  | [] => []
  | Some x :: l' => x :: keep_some l'
  | None :: l' => keep_some l'
  end.

Definition py_max (l : list Z) : option Z :=
  match l with
  | [] => None
  | x :: xs => Some (fold_left Z.max xs x)
  end.

Definition worst_score (data : dict player) : option Z :=
  py_max (keep_some (map (fun p => normalize_topar (topar p)) (dict_values data))).

(** ** Sorting *)

(** [sorted(xs)] on integers: insertion sort (every sort of a list of
    integers yields the same list). *)
Fixpoint insertZ (x : Z) (l : list Z) : list Z :=
  match l with
  | [] => [x]
  | y :: ys => if x <=? y then x :: y :: ys else y :: insertZ x ys
  end.

Fixpoint sortZ (l : list Z) : list Z :=
  match l with
  | [] => []
  | x :: xs => insertZ x (sortZ xs)
  end.

Fixpoint sum_list (l : list Z) : Z :=
  match l with
  | [] => 0
  | x :: xs => x + sum_list xs
  end.

(** ** The team scoring loop *)

(** A roster entry of [teams_data]: the pool member and the six tiers. *)
Record team := mkTeam {
  person : string;
  tier1 : string; tier2 : string; tier3 : string;
  tier4 : string; tier5 : string; tier6 : string
}.

(** [team[f"Tier {i}"] for i in range(1, 7)]. *)
Definition tier_names (t : team) : list string :=
  [tier1 t; tier2 t; tier3 t; tier4 t; tier5 t; tier6 t].

(** A leaderboard row: ["Team"], the player names shown in ["Players"]
    (the HTML around them is not modelled), ["AdjustedScores"] and
    ["Total"]. *)
Record row := mkRow {
  row_team : string;
  row_players : list string;
  row_adjusted : list Z;
  row_total : Z
}.

(** [String.upper() == "C"]. *)
Definition is_cut (st : string) : bool := String.eqb (upper st) "C".

(** One iteration of the inner loop:
<<
name = team[f"Tier {i}"].strip()
score, status, pid = get_player_score(name, live_data)
...
if score is None or status.upper() == "C":  # C = CUT
    adjusted = worst_score
else:
    adjusted = score
>>
    The unpacking of a pair into three names raises [ValueError]. *)
Definition score_slot (data : dict player) (worst : Z) (raw : string)
    : result (string * Z) :=
  let name := strip raw in
  match get_player_score name data with
  | Ret2 _ _ => Err unpack_error
  | Ret3 score st _ =>
      match score with
      | None => Ok (name, worst)
      | Some s => if is_cut st then Ok (name, worst) else Ok (name, s)
      end
  end.

(** One iteration of the outer loop, ending with
    [row["Total"] = sum(sorted(row["AdjustedScores"])[:5])]. *)
Definition team_row (data : dict player) (worst : Z) (t : team) : result row :=
  scored <- mapM (score_slot data worst) (tier_names t) ;;
  let adj := map snd scored in
  Ok (mkRow (person t) (map fst scored) adj (sum_list (firstn 5 (sortZ adj)))).

(** [leaderboard.sort(key=lambda x: x["Total"])]: Python's sort is
    stable, and a stable sort by a key has a single possible result, so
    it is modelled by a stable insertion sort (an element goes before the
    first element whose total is not smaller). *)
Fixpoint insert_row (r : row) (l : list row) : list row :=
  match l with
  | [] => [r]
  | r' :: l' =>
      if row_total r <=? row_total r' then r :: r' :: l' else r' :: insert_row r l'
  end.

Fixpoint sort_rows (l : list row) : list row :=
  match l with
  | [] => []
  | r :: l' => insert_row r (sort_rows l')
  end.

(** ** One refresh cycle

<<
live_data = fetch_live_scores()
if not live_data:
    st.error("Could not fetch live Masters data.")
    st.stop()
worst_score = max([...])
leaderboard = []
for team in teams_data: ...
leaderboard.sort(key=lambda x: x["Total"])
>> *)
Definition cycle (env : envelope) (teams : list team) : result (list row) :=
  let live_data := fetch_live_scores env in
  match live_data with
  | [] => Err fetch_error
  | _ =>
      match worst_score live_data with
      | None => Err max_empty_error
      | Some w =>
          rows <- mapM (team_row live_data w) teams ;;
          Ok (sort_rows rows)
      end
  end.

(** ** Concrete inputs *)

Definition pl (n t s : string) : player := mkPlayer n (Some t) (Some s) None.

Definition env_of (l : list player) : envelope := mkEnvelope (Some (Some l)) None.

Definition feed1 : envelope :=
  env_of [pl "Scottie Scheffler" "-8" "A"; pl "Rory McIlroy" "E" "A";
          pl "Tiger Woods" "5" "C"; pl "Jon Rahm" "3" "A";
          pl "Bryson DeChambeau" "-2" "A"; pl "Xander Schauffele" "1" "A";
          pl "Ludvig Aberg" "WD" "A"].

Definition teamA : team :=
  mkTeam "Ann" "Scottie Scheffler" "rory mcilroy" " Tiger Woods " "Jon Rahm"
         "Bryson DeChambeau" "Ludvig Aberg".

Definition teamB : team :=
  mkTeam "Bob" "Rory McIlroy" "Jon Rahm" "Tiger Woods" "Xander Schauffele"
         "Bryson DeChambeau" "Scottie Scheffler".

Definition teamC : team :=
  mkTeam "Cal" "Scottie Scheffler" "Rory McIlroy" "Jon Rahm" "Xander Schauffele"
         "Bryson DeChambeau" "Tiger Woods".

Definition teamMissing : team :=
  mkTeam "Dee" "Scottie Scheffler" "Rory McIlroy" "Jon Rahm" "Xander Schauffele"
         "Bryson DeChambeau" "Phil Mickelson".

Example worst_feed1 : worst_score (fetch_live_scores feed1) = Some 5.
Proof. reflexivity. Qed.

Example row_teamA :
  team_row (fetch_live_scores feed1) 5 teamA
  = Ok (mkRow "Ann" ["Scottie Scheffler"; "rory mcilroy"; "Tiger Woods"; "Jon Rahm";
                     "Bryson DeChambeau"; "Ludvig Aberg"]
              [-8; 0; 5; 3; -2; 5] (-2)).
Proof. reflexivity. Qed.

Example cycle_feed1 :
  option_map (map row_team)
    (match cycle feed1 [teamA; teamB; teamC] with Ok l => Some l | Err _ => None end)
  = Some ["Bob"; "Cal"; "Ann"].
Proof. vm_compute. reflexivity. Qed.

(** ** The page after the cycle: table rows, [all_player_scores] and the
    sidebar *)

(** Errors of the whole script run: those of the cycle, and the
    [IndexError] of [leaderboard[0]]. *)
Inductive page_error :=
| PyError (e : py_error)
| IndexError (msg : string).

Inductive page_result (A : Type) :=
| PageOk (a : A)
| PageErr (e : page_error).
Arguments PageOk {A} a.
Arguments PageErr {A} e.

(** The team loop with its second output, [all_player_scores]: each slot
    appends [(name, adjusted)] to it, in roster and tier order. *)
Fixpoint score_teams (data : dict player) (worst : Z) (teams : list team)
    : result (list row * list (string * Z)) :=
  match teams with
  | [] => Ok ([], [])
  | t :: ts =>
      scored <- mapM (score_slot data worst) (tier_names t) ;;
      let adj := map snd scored in
      let r := mkRow (person t) (map fst scored) adj (sum_list (firstn 5 (sortZ adj))) in
      rest <- score_teams data worst ts ;;
      Ok (r :: fst rest, scored ++ snd rest)
  end.

(** [min(all_player_scores, key=lambda x: x[1])]: the first pair of
    smallest score; [None] for the [ValueError] on an empty list. *)
Definition py_min_snd (l : list (string * Z)) : option (string * Z) :=
  match l with
  | [] => None
  | x :: xs => Some (fold_left (fun cur y => if snd y <? snd cur then y else cur) xs x)
  end.

(** [f"Tier {i}"]. *)
Definition tier_key (i : nat) : string := "Tier " ++ py_str (Z.of_nat i).

(** [team[f"Tier {i}"]] for [i] in [1 .. 6]. *)
Definition tier_of (t : team) (i : nat) : string := nth (pred i) (tier_names t) "".

(** [d[k] += 1] on a [defaultdict(int)]. *)
Definition dict_incr (d : dict nat) (k : string) : dict nat :=
  dict_set d k (match dict_get d k with Some n => S n | None => 1%nat end).

(** [tier_counts[tk][player] += 1] on the nested [defaultdict]. *)
Definition count_pick (tc : dict (dict nat)) (tk player : string) : dict (dict nat) :=
  dict_set tc tk (dict_incr (match dict_get tc tk with Some d => d | None => [] end) player).

(**
<<
tier_counts = defaultdict(lambda: defaultdict(int))
for team in teams_data:
    for i in range(1, 7):
        player = team[f"Tier {i}"].strip()
        tier_counts[f"Tier {i}"][player] += 1
>> *)
Definition count_picks (teams : list team) : dict (dict nat) :=
  fold_left (fun tc t =>
      fold_left (fun tc i => count_pick tc (tier_key i) (strip (tier_of t i))) (seq 1 6) tc)
    teams [].

(** [sorted(tier_counts.keys())]. *)
Fixpoint insert_str (s : string) (l : list string) : list string :=
  match l with
  | [] => [s]
  | y :: ys => if String.leb s y then s :: y :: ys else y :: insert_str s ys
  end.

Definition sort_str (l : list string) : list string := fold_right insert_str [] l.

(** [sorted(tier_counts[tier].items(), key=lambda x: -x[1])], a stable
    sort by decreasing count. *)
Fixpoint insert_count (x : string * nat) (l : list (string * nat)) : list (string * nat) :=
  match l with
  | [] => [x]
  | y :: ys => if (snd y <=? snd x)%nat then x :: y :: ys else y :: insert_count x ys
  end.

Definition sort_counts (l : list (string * nat)) : list (string * nat) :=
  fold_right insert_count [] l.

(** The per-tier pick lists shown in the sidebar, in displayed order. *)
Definition tier_summary (teams : list team) : list (string * list (string * nat)) :=
  let tc := count_picks teams in
  map (fun tk => (tk, sort_counts (match dict_get tc tk with Some d => d | None => [] end)))
      (sort_str (map fst tc)).

Record summary := mkSummary {
  leader : string;
  best_player : string * Z;
  tier_picks : list (string * list (string * nat))
}.

(** The sidebar: [leaderboard[0]['Team']], [best_player] and the tier
    pick counts. *)
Definition sidebar (leaderboard : list row) (aps : list (string * Z)) (teams : list team)
    : page_result summary :=
  match leaderboard with
  | [] => PageErr (IndexError "list index out of range")
  | r :: _ =>
      match py_min_snd aps with
      | None => PageErr (PyError (ValueError "min() arg is an empty sequence"))
      | Some bp => PageOk (mkSummary (row_team r) bp (tier_summary teams))
      end
  end.

(** The whole script run: the sorted leaderboard rendered in the table
    and the sidebar summary. *)
Definition page (env : envelope) (teams : list team) : page_result (list row * summary) :=
  let live_data := fetch_live_scores env in
  match live_data with
  | [] => PageErr (PyError fetch_error)
  | _ =>
      match worst_score live_data with
      | None => PageErr (PyError max_empty_error)
      | Some w =>
          match score_teams live_data w teams with
          | Err e => PageErr (PyError e)
          | Ok (rows, aps) =>
              let lb := sort_rows rows in
              match sidebar lb aps teams with
              | PageOk s => PageOk (lb, s)
              | PageErr e => PageErr e
              end
          end
      end
  end.

Example page_feed1 :
  match page feed1 [teamA; teamB; teamC] with
  | PageOk (_, s) => Some (leader s, best_player s, map fst (tier_picks s),
                           snd (nth 2 (tier_picks s) ("", [])))
  | PageErr _ => None
  end
  = Some ("Bob", ("Scottie Scheffler", -8),
          ["Tier 1"; "Tier 2"; "Tier 3"; "Tier 4"; "Tier 5"; "Tier 6"],
          [("Tiger Woods", 2%nat); ("Jon Rahm", 1%nat)]).
Proof. vm_compute. reflexivity. Qed.

Example page_empty_roster :
  page feed1 [] = PageErr (IndexError "list index out of range").
Proof. vm_compute. reflexivity. Qed.

Definition roster1 : list team := [teamA; teamB; teamC].

Definition page1_lb : list row :=
  match page feed1 roster1 with PageOk (lb, _) => lb | PageErr _ => [] end.

Definition page1_summary : summary :=
  match page feed1 roster1 with
  | PageOk (_, s) => s
  | PageErr _ => mkSummary "" ("", 0) []
  end.

(** The records of [feed1], and the same records in reverse order. *)
Definition players1 : list player :=
  [pl "Scottie Scheffler" "-8" "A"; pl "Rory McIlroy" "E" "A";
   pl "Tiger Woods" "5" "C"; pl "Jon Rahm" "3" "A";
   pl "Bryson DeChambeau" "-2" "A"; pl "Xander Schauffele" "1" "A";
   pl "Ludvig Aberg" "WD" "A"].

Definition feed1_rev : envelope := env_of (rev players1).

(** * Proofs *)

Arguments digit_char : simpl never.
Arguments is_digit : simpl never.
Arguments is_space : simpl never.
Arguments is_int_space : simpl never.
Arguments digit_value : simpl never.

Fixpoint all_chars (f : ascii -> bool) (s : string) : bool :=
  match s with
  | EmptyString => true
  | String c s' => f c && all_chars f s'
  end.

Fixpoint any_char (f : ascii -> bool) (s : string) : bool :=
  match s with
  | EmptyString => false
  | String c s' => f c || any_char f s'
  end.

(** Facts about single characters, checked over all 256 of them. *)
Ltac all_ascii :=
  let c := fresh "c" in
  intros c; destruct c as [[] [] [] [] [] [] [] []]; vm_compute;
  first [ reflexivity | intros; discriminate
        | intros; repeat split; reflexivity
        | intros; left; reflexivity | intros; right; reflexivity ].

Lemma is_space_lower_char : forall c, is_space (lower_char c) = is_space c.
Proof. all_ascii. Qed.

Lemma lower_char_idem : forall c, lower_char (lower_char c) = lower_char c.
Proof. all_ascii. Qed.

Lemma digit_not_space : forall c, is_digit c = true -> is_space c = false.
Proof. all_ascii. Qed.

Lemma digit_not_sign : forall c, is_digit c = true ->
  Ascii.eqb c "-" = false /\ Ascii.eqb c "+" = false /\ Ascii.eqb c "_" = false.
Proof. all_ascii. Qed.

Lemma alpha_not_space : forall c, is_alpha c = true -> is_space c = false.
Proof. all_ascii. Qed.

Lemma digit_not_int_space : forall c, is_digit c = true -> is_int_space c = false.
Proof. all_ascii. Qed.

Lemma alpha_not_int_space : forall c, is_alpha c = true -> is_int_space c = false.
Proof. all_ascii. Qed.

Lemma alpha_not_digit : forall c, is_alpha c = true ->
  is_digit c = false /\ Ascii.eqb c "_" = false.
Proof. all_ascii. Qed.

Lemma upper_char_C : forall c, upper_char c = "C"%char -> c = "C"%char \/ c = "c"%char.
Proof. all_ascii. Qed.

(** ** strip and lower *)

Lemma lower_idem : forall s, lower (lower s) = lower s.
Proof. induction s; simpl; [reflexivity | now rewrite lower_char_idem, IHs]. Qed.

Lemma lstrip_lower : forall s, lstrip (lower s) = lower (lstrip s).
Proof.
  induction s as [|c s IH]; simpl; [reflexivity|].
  rewrite is_space_lower_char. destruct (is_space c); [exact IH | reflexivity].
Qed.

Lemma lower_empty : forall s, lower s = EmptyString <-> s = EmptyString.
Proof. intros []; simpl; split; congruence. Qed.

Lemma rstrip_lower : forall s, rstrip (lower s) = lower (rstrip s).
Proof.
  induction s as [|c s IH]; simpl; [reflexivity|].
  rewrite IH, is_space_lower_char.
  destruct (rstrip s); simpl; [destruct (is_space c)|]; reflexivity.
Qed.

Lemma strip_lower : forall s, strip (lower s) = lower (strip s).
Proof. intros s. unfold strip. now rewrite lstrip_lower, rstrip_lower. Qed.

Lemma lstrip_idem : forall s, lstrip (lstrip s) = lstrip s.
Proof.
  induction s as [|c s IH]; simpl; [reflexivity|].
  destruct (is_space c) eqn:E; [exact IH | simpl; now rewrite E].
Qed.

Lemma rstrip_idem : forall s, rstrip (rstrip s) = rstrip s.
Proof.
  induction s as [|c s IH]; simpl; [reflexivity|].
  destruct (rstrip s) as [|c' r] eqn:E.
  - destruct (is_space c) eqn:Ec; simpl; [reflexivity | now rewrite Ec].
  - simpl in IH |- *. rewrite IH. reflexivity.
Qed.

Lemma lstrip_rstrip : forall s, lstrip (rstrip s) = rstrip (lstrip s).
Proof.
  induction s as [|c s IH]; simpl; [reflexivity|].
  destruct (is_space c) eqn:Ec.
  - rewrite <- IH. destruct (rstrip s); simpl; [reflexivity | now rewrite Ec].
  - simpl. destruct (rstrip s); simpl; now rewrite Ec.
Qed.

Lemma strip_idem : forall s, strip (strip s) = strip s.
Proof.
  intros s. unfold strip.
  now rewrite lstrip_rstrip, lstrip_idem, rstrip_idem.
Qed.

(** The lookup key of [get_player_score] is a fixpoint of the key
    normalisation. *)
Lemma key_idem : forall s, lower (strip (lower (strip s))) = lower (strip s).
Proof. intros s. now rewrite strip_lower, strip_idem, lower_idem. Qed.

Lemma upper_is_C : forall s, is_cut s = true <-> s = "C" \/ s = "c".
Proof.
  intros s. unfold is_cut. rewrite String.eqb_eq. split.
  - destruct s as [|c [|c' s]]; simpl; intros H; try discriminate.
    injection H as H. apply upper_char_C in H. destruct H; subst; auto.
  - intros [-> | ->]; reflexivity.
Qed.

(** ** int() and str() *)

Lemma all_chars_app : forall f s t,
  all_chars f (s ++ t)%string = all_chars f s && all_chars f t.
Proof.
  intros f s t. induction s as [|c s IH]; simpl; [reflexivity|].
  now rewrite IH, andb_assoc.
Qed.

Lemma digits_aux_snoc : forall s d acc,
  all_chars is_digit s = true -> is_digit d = true ->
  digits_aux (s ++ String d EmptyString)%string acc
  = option_map (fun v => v * 10 + digit_value d) (digits_aux s acc).
Proof.
  induction s as [|c s IH]; intros d acc Hs Hd; simpl.
  - now rewrite Hd.
  - simpl in Hs. apply andb_prop in Hs as [Hc Hs]. rewrite Hc. now apply IH.
Qed.

Lemma digit_char_spec : forall d, 0 <= d < 10 ->
  is_digit (digit_char d) = true /\ digit_value (digit_char d) = d.
Proof.
  intros d Hd.
  assert (d = 0 \/ d = 1 \/ d = 2 \/ d = 3 \/ d = 4 \/ d = 5 \/ d = 6 \/ d = 7
          \/ d = 8 \/ d = 9) as H by lia.
  repeat destruct H as [-> | H]; try (subst; split; reflexivity).
Qed.

Lemma str_length_app : forall s t : string,
  String.length (s ++ t) = (String.length s + String.length t)%nat.
Proof. induction s as [|c s IH]; intros t; simpl; [reflexivity | now rewrite IH]. Qed.

Lemma digits_fuel_spec : forall fuel n, 0 <= n -> (Z.to_nat n < fuel)%nat ->
  exists c s, digits_fuel fuel n = String c s /\ is_digit c = true
    /\ all_chars is_digit s = true /\ parse_digits (String c s) = Some n
    /\ (forall k, 0 < k -> n < 10 ^ k -> Z.of_nat (String.length (String c s)) <= k).
Proof.
  induction fuel as [|f IH]; intros n Hn Hf; [lia|].
  simpl. destruct (n <? 10) eqn:Hlt.
  - apply Z.ltb_lt in Hlt.
    destruct (digit_char_spec n) as [Hd Hv]; [lia|].
    exists (digit_char n), EmptyString.
    split; [reflexivity|]. split; [exact Hd|]. split; [reflexivity|]. split.
    + unfold parse_digits. rewrite Hd. cbn [digits_aux]. now rewrite Hv.
    + intros k Hk _. simpl. lia.
  - apply Z.ltb_ge in Hlt.
    pose proof (Z.div_mod n 10) as Hdm. pose proof (Z.mod_pos_bound n 10) as Hmb.
    assert (0 <= n / 10) by (apply Z.div_pos; lia).
    assert (n / 10 < n) by (apply Z.div_lt; lia).
    destruct (IH (n / 10)) as (c & s & Heq & Hc & Hs & Hp & Hlen); [lia | lia |].
    destruct (digit_char_spec (n mod 10)) as [Hd Hv]; [lia|].
    rewrite Heq.
    exists c, (s ++ String (digit_char (n mod 10)) EmptyString)%string.
    split; [reflexivity|]. split; [exact Hc|]. split; [|split].
    + rewrite all_chars_app, Hs. cbn [all_chars]. now rewrite Hd.
    + unfold parse_digits in Hp |- *. rewrite Hc in Hp |- *.
      rewrite digits_aux_snoc, Hp by assumption. cbn [option_map].
      rewrite Hv. f_equal. lia.
    + intros k Hk Hnk.
      assert (Hk1 : 1 < k).
      { destruct (Z.eq_dec k 1) as [->|]; [|lia]. rewrite Z.pow_1_r in Hnk. lia. }
      assert (Hpow : 10 ^ k = 10 * 10 ^ (k - 1)).
      { rewrite <- Z.pow_succ_r by lia. f_equal. lia. }
      assert (Hdiv : n / 10 < 10 ^ (k - 1)) by (apply Z.div_lt_upper_bound; lia).
      specialize (Hlen (k - 1) ltac:(lia) Hdiv).
      rewrite str_length_app. cbn [String.length] in Hlen |- *. lia.
Qed.

Lemma count_digits_all : forall s, all_chars is_digit s = true ->
  count_digits s = String.length s.
Proof.
  induction s as [|c s IH]; intros Hs; [reflexivity|].
  cbn [all_chars] in Hs. apply andb_prop in Hs as [Hc Hs]. simpl. rewrite Hc. now rewrite IH.
Qed.

Lemma int_nonspace_rstrip : forall s,
  all_chars (fun c => negb (is_int_space c)) s = true -> int_rstrip s = s.
Proof.
  induction s as [|c s IH]; intros Hs; cbn [int_rstrip]; [reflexivity|].
  cbn [all_chars] in Hs. apply andb_prop in Hs as [Hc Hs]. rewrite IH by exact Hs.
  destruct s; [|reflexivity]. apply negb_true_iff in Hc. now rewrite Hc.
Qed.

Lemma digits_int_nonspace : forall s,
  all_chars is_digit s = true -> all_chars (fun c => negb (is_int_space c)) s = true.
Proof.
  induction s as [|c s IH]; intros Hs; [reflexivity|].
  cbn [all_chars] in Hs |- *. apply andb_prop in Hs as [Hc Hs].
  now rewrite digit_not_int_space, IH.
Qed.

(** The decimal form of a natural number below [10 ^ max_str_digits]
    is a digit string that [int()] reads back. *)
Lemma decimal_digits : forall m, 0 <= m -> exists c s,
  digits_fuel (S (Z.to_nat m)) m = String c s /\ is_digit c = true
  /\ all_chars is_digit s = true
  /\ (m < 10 ^ Z.of_nat max_str_digits -> parse_int_body (String c s) = Some m).
Proof.
  intros m Hm.
  destruct (digits_fuel_spec (S (Z.to_nat m)) m) as (c & s & Heq & Hc & Hs & Hp & Hlen);
    [lia | lia |].
  exists c, s. split; [exact Heq|]. split; [exact Hc|]. split; [exact Hs|].
  intros Hb. specialize (Hlen (Z.of_nat max_str_digits) ltac:(vm_compute; reflexivity) Hb).
  unfold parse_int_body. rewrite Hp.
  rewrite count_digits_all by (cbn [all_chars]; now rewrite Hc, Hs).
  apply Nat2Z.inj_le, Nat.leb_le in Hlen. now rewrite Hlen.
Qed.

(** [str(n)] starts with a minus sign or a digit. *)
Lemma py_str_spec : forall n, exists c s, py_str n = String c s
  /\ (c = "-"%char \/ is_digit c = true).
Proof.
  intros n. unfold py_str. destruct (n <? 0) eqn:Hneg.
  - exists "-"%char, (digits_fuel (S (Z.to_nat (- n))) (- n)). split; [reflexivity | now left].
  - apply Z.ltb_ge in Hneg. destruct (decimal_digits n Hneg) as (c & s & Heq & Hc & _).
    rewrite Heq. exists c, s. split; [reflexivity | now right].
Qed.

(** [int(str(n)) = n] below the digit limit. *)
Lemma py_int_py_str : forall n, Z.abs n < 10 ^ Z.of_nat max_str_digits ->
  py_int (py_str n) = Some n.
Proof.
  intros n Hb. unfold py_str. destruct (n <? 0) eqn:Hneg.
  - apply Z.ltb_lt in Hneg.
    destruct (decimal_digits (- n)) as (c & s & Heq & Hc & Hs & Hp); [lia|].
    rewrite Heq. unfold py_int, int_strip.
    change (int_lstrip (String "-" (String c s))) with (String "-" (String c s)).
    rewrite int_nonspace_rstrip.
    + cbv beta iota. rewrite Ascii.eqb_refl, Hp by lia. cbn [option_map]. f_equal; lia.
    + change (all_chars (fun c => negb (is_int_space c)) (String c s) = true).
      apply digits_int_nonspace. cbn [all_chars]. now rewrite Hc, Hs.
  - apply Z.ltb_ge in Hneg.
    destruct (decimal_digits n) as (c & s & Heq & Hc & Hs & Hp); [lia|].
    rewrite Heq. destruct (digit_not_sign c Hc) as (Hm & Hpl & _).
    unfold py_int, int_strip. cbn [int_lstrip]. rewrite digit_not_int_space by exact Hc.
    rewrite int_nonspace_rstrip
      by (apply digits_int_nonspace; cbn [all_chars]; now rewrite Hc, Hs).
    cbv beta iota. rewrite Hm, Hpl. apply Hp. lia.
Qed.

(** [int("+" + str(n)) = n] for a natural number below the digit limit. *)
Lemma py_int_plus_py_str : forall n, 0 <= n < 10 ^ Z.of_nat max_str_digits ->
  py_int ("+" ++ py_str n) = Some n.
Proof.
  intros n Hb. unfold py_str. replace (n <? 0) with false by (symmetry; apply Z.ltb_ge; lia).
  destruct (decimal_digits n) as (c & s & Heq & Hc & Hs & Hp); [lia|].
  rewrite Heq. unfold py_int, int_strip.
  change (int_lstrip ("+" ++ String c s)) with (String "+" (String c s)).
  rewrite int_nonspace_rstrip.
  - cbv beta iota. change (Ascii.eqb "+" "-") with false. rewrite Ascii.eqb_refl.
    apply Hp. lia.
  - change (all_chars (fun c => negb (is_int_space c)) (String c s) = true).
    apply digits_int_nonspace. cbn [all_chars]. now rewrite Hc, Hs.
Qed.

(** [int()] refuses a digit string longer than the digit limit. *)
Lemma py_int_too_long : forall s, all_chars is_digit s = true ->
  (max_str_digits < String.length s)%nat -> py_int s = None.
Proof.
  intros [|c s] Hs Hl; [reflexivity|].
  cbn [all_chars] in Hs. apply andb_prop in Hs as [Hc Hs'].
  destruct (digit_not_sign c Hc) as (Hm & Hpl & _).
  unfold py_int, int_strip. cbn [int_lstrip]. rewrite digit_not_int_space by exact Hc.
  rewrite int_nonspace_rstrip
    by (apply digits_int_nonspace; cbn [all_chars]; now rewrite Hc, Hs').
  cbv beta iota. rewrite Hm, Hpl. unfold parse_int_body.
  rewrite count_digits_all by (cbn [all_chars]; now rewrite Hc, Hs').
  destruct (parse_digits (String c s)); [|reflexivity].
  apply Nat.leb_gt in Hl. now rewrite Hl.
Qed.

Lemma int_lstrip_alpha : forall s, any_char is_alpha (int_lstrip s) = any_char is_alpha s.
Proof.
  induction s as [|c s IH]; cbn [int_lstrip any_char]; [reflexivity|].
  destruct (is_alpha c) eqn:Ha.
  - rewrite alpha_not_int_space by exact Ha. cbn [any_char]. now rewrite Ha.
  - destruct (is_int_space c); [exact IH | cbn [any_char]; now rewrite Ha].
Qed.

Lemma int_rstrip_alpha : forall s, any_char is_alpha (int_rstrip s) = any_char is_alpha s.
Proof.
  induction s as [|c s IH]; cbn [int_rstrip]; [reflexivity|].
  destruct (int_rstrip s) as [|c' r] eqn:E; cbn [any_char] in IH |- *.
  - rewrite <- IH, orb_false_r.
    destruct (is_int_space c) eqn:Es; cbn [any_char]; [|now rewrite orb_false_r].
    destruct (is_alpha c) eqn:Ha; [|reflexivity].
    now rewrite alpha_not_int_space in Es.
  - now rewrite <- IH.
Qed.

Lemma digits_aux_alpha : forall s acc, any_char is_alpha s = true -> digits_aux s acc = None.
Proof.
  induction s as [|c s IH]; intros acc Hs; [discriminate|].
  cbn [any_char] in Hs. cbn [digits_aux].
  destruct (is_alpha c) eqn:Ha.
  - destruct (alpha_not_digit c Ha) as [-> ->]. reflexivity.
  - simpl in Hs. destruct (is_digit c); [now apply IH|].
    destruct (Ascii.eqb c "_"); [|reflexivity].
    destruct s as [|d s']; [reflexivity|].
    destruct (is_digit d) eqn:Hd; [|reflexivity].
    specialize (IH acc Hs). cbn [digits_aux] in IH. now rewrite Hd in IH.
Qed.

Lemma parse_int_body_alpha : forall s, any_char is_alpha s = true -> parse_int_body s = None.
Proof.
  intros [|c s] Hs; [reflexivity|]. cbn [any_char] in Hs. unfold parse_int_body.
  cbn [parse_digits]. destruct (is_alpha c) eqn:Ha.
  - now destruct (alpha_not_digit c Ha) as [-> _].
  - destruct (is_digit c); [|reflexivity]. now rewrite digits_aux_alpha.
Qed.

(** [int()] rejects every string holding a letter. *)
Lemma py_int_alpha : forall s, any_char is_alpha s = true -> py_int s = None.
Proof.
  intros s Hs. unfold py_int.
  assert (Hst : any_char is_alpha (int_strip s) = true)
    by (unfold int_strip; now rewrite int_rstrip_alpha, int_lstrip_alpha).
  destruct (int_strip s) as [|c rest]; [reflexivity|].
  destruct (Ascii.eqb c "-") eqn:Em.
  - apply Ascii.eqb_eq in Em. subst c. cbn [any_char] in Hst.
    now rewrite parse_int_body_alpha.
  - destruct (Ascii.eqb c "+") eqn:Ep.
    + apply Ascii.eqb_eq in Ep. subst c. cbn [any_char] in Hst.
      now rewrite parse_int_body_alpha.
    + now apply parse_int_body_alpha.
Qed.

Lemma int_lstrip_rstrip : forall s, int_lstrip (int_rstrip s) = int_rstrip (int_lstrip s).
Proof.
  induction s as [|c s IH]; simpl; [reflexivity|].
  destruct (is_int_space c) eqn:Ec.
  - rewrite <- IH. destruct (int_rstrip s); simpl; [reflexivity | now rewrite Ec].
  - simpl. destruct (int_rstrip s); simpl; now rewrite Ec.
Qed.

Lemma int_lstrip_spaces : forall a s, all_chars is_int_space a = true ->
  int_lstrip (a ++ s) = int_lstrip s.
Proof.
  induction a as [|c a IH]; intros s Ha; [reflexivity|].
  cbn [all_chars] in Ha. apply andb_prop in Ha as [Hc Ha]. simpl. rewrite Hc. now apply IH.
Qed.

Lemma int_rstrip_spaces : forall s b, all_chars is_int_space b = true ->
  int_rstrip (s ++ b) = int_rstrip s.
Proof.
  induction s as [|c s IH]; intros b Hb.
  - simpl. induction b as [|c b IHb]; [reflexivity|].
    cbn [all_chars] in Hb. apply andb_prop in Hb as [Hc Hb].
    simpl. rewrite (IHb Hb). now rewrite Hc.
  - simpl. now rewrite IH.
Qed.

Lemma str_app_assoc : forall a s b : string, (a ++ s ++ b)%string = ((a ++ s) ++ b)%string.
Proof. induction a as [|c a IH]; intros s b; simpl; [reflexivity | now rewrite IH]. Qed.

(** [int()] ignores padding made of the whitespace it skips. *)
Lemma py_int_padding : forall a s b,
  all_chars is_int_space a = true -> all_chars is_int_space b = true ->
  py_int (a ++ s ++ b) = py_int s.
Proof.
  intros a s b Ha Hb. unfold py_int, int_strip.
  rewrite <- !int_lstrip_rstrip.
  rewrite str_app_assoc, int_rstrip_spaces by exact Hb.
  now rewrite int_lstrip_rstrip, int_lstrip_spaces, <- int_lstrip_rstrip.
Qed.

Lemma padded_not_E : forall a s b,
  all_chars is_int_space a = true -> all_chars is_int_space b = true -> s <> "E" ->
  (a ++ s ++ b)%string <> "E".
Proof.
  intros a s b Ha Hb Hs Heq. destruct a as [|c a].
  - destruct s as [|c s].
    + simpl in Heq. subst b. discriminate.
    + injection Heq as -> Hrest. destruct s; [contradiction | discriminate].
  - injection Heq as -> _. discriminate.
Qed.

Lemma py_str_not_E : forall n, py_str n <> "E".
Proof.
  intros n Heq. destruct (py_str_spec n) as (c & s & Hs & Hc).
  rewrite Hs in Heq. inversion Heq; subst.
  destruct Hc as [Hc | Hc]; [discriminate | vm_compute in Hc; discriminate].
Qed.

Lemma normalize_not_E : forall s, s <> "E" -> normalize_topar (Some s) = py_int s.
Proof.
  intros s Hs. cbn [normalize_topar].
  destruct (String.eqb s "E") eqn:E; [|reflexivity].
  apply String.eqb_eq in E. contradiction.
Qed.

(** ** The feed index *)

(** Every entry is stored under its record's key, and keys are distinct. *)
Definition index_inv (d : dict player) : Prop :=
  Forall (fun kp => fst kp = player_key (snd kp)) d /\ NoDup (map fst d).

Lemma dict_set_keys : forall {V} (d : dict V) k v x,
  In x (map fst (dict_set d k v)) -> In x (map fst d) \/ x = k.
Proof.
  induction d as [|[k' v'] d IH]; intros k v x H; simpl in H |- *.
  - intuition.
  - destruct (String.eqb k k'); simpl in H; [intuition|].
    destruct H as [H|H]; [auto|]. destruct (IH _ _ _ H); auto.
Qed.

Lemma index_key_in : forall d q,
  Forall (fun kp => fst kp = player_key (snd kp)) d ->
  In q (dict_values d) -> In (player_key q) (map fst d).
Proof.
  intros d q Hf Hq. unfold dict_values in Hq. apply in_map_iff in Hq as ([k v] & <- & Hin).
  rewrite Forall_forall in Hf. specialize (Hf _ Hin). simpl in Hf |- *. subst k.
  now apply (in_map fst) in Hin.
Qed.

Lemma dict_set_inv : forall d p,
  index_inv d -> index_inv (dict_set d (player_key p) p).
Proof.
  induction d as [|[k' v'] d IH]; intros p [Hf Hn]; simpl.
  - split; [now constructor | repeat constructor; auto].
  - inversion Hf as [|? ? Hk Hf']; subst. simpl in Hk.
    inversion Hn as [|? ? Hnot Hn']; subst.
    match goal with |- context [String.eqb (player_key p) ?k] =>
      destruct (String.eqb (player_key p) k) eqn:E end.
    + apply String.eqb_eq in E. split; [constructor; simpl; auto | exact Hn].
    + apply String.eqb_neq in E. destruct (IH p (conj Hf' Hn')) as [Hf2 Hn2].
      split; [now constructor|]. simpl. constructor; [|exact Hn2].
      intros Hin. destruct (dict_set_keys _ _ _ _ Hin); [contradiction | congruence].
Qed.

Lemma dict_set_values : forall d p q, index_inv d ->
  In q (dict_values (dict_set d (player_key p) p))
  <-> q = p \/ (In q (dict_values d) /\ player_key q <> player_key p).
Proof.
  induction d as [|[k' v'] d IH]; intros p q [Hf Hn]; unfold dict_values; simpl.
  - intuition.
  - inversion Hf as [|? ? Hk Hf']; subst. simpl in Hk.
    inversion Hn as [|? ? Hnot Hn']; subst.
    destruct (String.eqb (player_key p) (player_key v')) eqn:E; simpl.
    + apply String.eqb_eq in E.
      assert (Hd : In q (map snd d) -> player_key q <> player_key p).
      { intros Hq Heq. apply Hnot. rewrite <- E, <- Heq.
        now apply index_key_in. }
      split.
      * intros [<- | Hq]; [now left | right; auto].
      * intros [<- | [[<- | Hq] Hne]]; [now left | congruence | now right].
    + apply String.eqb_neq in E. fold (dict_values (dict_set d (player_key p) p)).
      rewrite (IH p q (conj Hf' Hn')). unfold dict_values. intuition congruence.
Qed.

Lemma build_index_snoc : forall l x,
  build_index (l ++ [x]) = dict_set (build_index l) (player_key x) x.
Proof. intros l x. unfold build_index. now rewrite fold_left_app. Qed.

Lemma build_index_inv : forall l, index_inv (build_index l).
Proof.
  induction l as [|x l IH] using rev_ind.
  - split; constructor.
  - rewrite build_index_snoc. now apply dict_set_inv.
Qed.

(** A record stays in the index exactly when no later record has the
    same key. *)
Lemma build_index_values : forall l q,
  In q (dict_values (build_index l))
  <-> exists l1 l2, l = (l1 ++ q :: l2)%list
       /\ Forall (fun r => player_key r <> player_key q) l2.
Proof.
  induction l as [|x l IH] using rev_ind; intros q.
  - split; [intros []|]. intros (l1 & l2 & H & _). now apply app_cons_not_nil in H.
  - rewrite build_index_snoc, dict_set_values by apply build_index_inv.
    rewrite IH. split.
    + intros [-> | ((l1 & l2 & -> & Hl2) & Hne)].
      * exists l, []. split; [reflexivity | constructor].
      * exists l1, (l2 ++ [x]). split; [now rewrite <- app_assoc|].
        apply Forall_app. split; [exact Hl2|]. constructor; [congruence | constructor].
    + intros (l1 & l2 & Heq & Hl2).
      destruct l2 as [|y l2 _] using rev_ind.
      * apply app_inj_tail in Heq as [_ ->]. now left.
      * rewrite app_comm_cons, app_assoc in Heq. apply app_inj_tail in Heq as [-> ->].
        apply Forall_app in Hl2 as [Hl2 Hx]. inversion Hx; subst.
        right. split; [exists l1, l2; auto | congruence].
Qed.

Lemma dict_get_in : forall {V} (d : dict V) k v, dict_get d k = Some v -> In v (dict_values d).
Proof.
  induction d as [|[k' v'] d IH]; intros k v H; simpl in H; [discriminate|].
  unfold dict_values. simpl. destruct (String.eqb k k'); [left; congruence|].
  right. eapply IH. exact H.
Qed.

Lemma build_index_keys : forall l,
  Forall (fun kp => fst kp = lower (strip (full_name (snd kp)))) (build_index l).
Proof. intros l. apply build_index_inv. Qed.

(** ** worst_score *)

Lemma keep_some_map : forall {A} (f : A -> option Z) l v,
  In v (keep_some (map f l)) <-> exists p, In p l /\ f p = Some v.
Proof.
  induction l as [|x l IH]; intros v; simpl.
  - split; [intros []| intros (p & [] & _)].
  - destruct (f x) as [y|] eqn:E; simpl; rewrite IH; split.
    + intros [<- | (p & Hp & Hf)]; eauto.
    + intros (p & [<- | Hp] & Hf); [left; congruence | right; eauto].
    + intros (p & Hp & Hf); eauto.
    + intros (p & [<- | Hp] & Hf); [congruence | eauto].
Qed.

Lemma fold_max_spec : forall xs x,
  In (fold_left Z.max xs x) (x :: xs)
  /\ Forall (fun v => v <= fold_left Z.max xs x) (x :: xs).
Proof.
  induction xs as [|y xs IH]; intros x; cbn [fold_left].
  - split; [now left | constructor; [lia | constructor]].
  - destruct (IH (Z.max x y)) as [Hin Hle]. inversion Hle as [|? ? H1 H2]; subst.
    split.
    + destruct Hin as [Hm | Hin]; [|right; right; exact Hin].
      destruct (Z.max_spec x y) as [[_ E] | [_ E]]; rewrite E in Hm |- *; rewrite <- Hm;
        simpl; tauto.
    + constructor; [lia|]. constructor; [lia | exact H2].
Qed.

Lemma worst_score_spec : forall d,
  match worst_score d with
  | Some w =>
      (exists p, In p (dict_values d) /\ normalize_topar (topar p) = Some w)
      /\ (forall p v, In p (dict_values d) -> normalize_topar (topar p) = Some v -> v <= w)
  | None => forall p, In p (dict_values d) -> normalize_topar (topar p) = None
  end.
Proof.
  intros d. unfold worst_score.
  pose proof (keep_some_map (fun p => normalize_topar (topar p)) (dict_values d)) as Hk.
  destruct (keep_some (map (fun p => normalize_topar (topar p)) (dict_values d)))
    as [|x xs] eqn:E; simpl.
  - intros p Hp. destruct (normalize_topar (topar p)) as [v|] eqn:Ev; [|reflexivity].
    exfalso. apply (proj2 (Hk v)). eauto.
  - destruct (fold_max_spec xs x) as [Hin Hle]. split.
    + apply Hk in Hin. exact Hin.
    + intros p v Hp Hv. rewrite Forall_forall in Hle. apply Hle, Hk. eauto.
Qed.

(** ** Sorting *)

Lemma insertZ_perm : forall x l, Permutation (insertZ x l) (x :: l).
Proof.
  induction l as [|y l IH]; simpl; [reflexivity|].
  destruct (x <=? y); [reflexivity|].
  rewrite IH. apply perm_swap.
Qed.

Lemma sortZ_perm : forall l, Permutation (sortZ l) l.
Proof.
  induction l as [|x l IH]; simpl; [reflexivity|].
  now rewrite insertZ_perm, IH.
Qed.

Lemma insertZ_sorted : forall x l, Sorted Z.le l -> Sorted Z.le (insertZ x l).
Proof.
  intros x l H. induction H as [|y l Hl IH Hhd]; simpl.
  - repeat constructor.
  - destruct (x <=? y) eqn:E.
    + apply Z.leb_le in E. now repeat constructor.
    + apply Z.leb_gt in E. constructor; [exact IH|].
      destruct l as [|z l]; simpl; [constructor; lia|].
      destruct (x <=? z); constructor; [lia | now inversion Hhd].
Qed.

Lemma sortZ_sorted : forall l, Sorted Z.le (sortZ l).
Proof. induction l; simpl; [constructor | now apply insertZ_sorted]. Qed.

Definition le_total (a b : row) : Prop := row_total a <= row_total b.

Lemma insert_row_perm : forall r l, Permutation (insert_row r l) (r :: l).
Proof.
  induction l as [|y l IH]; simpl; [reflexivity|].
  destruct (row_total r <=? row_total y); [reflexivity|].
  rewrite IH. apply perm_swap.
Qed.

Lemma sort_rows_perm : forall l, Permutation (sort_rows l) l.
Proof.
  induction l as [|x l IH]; simpl; [reflexivity|].
  now rewrite insert_row_perm, IH.
Qed.

Lemma insert_row_sorted : forall r l, Sorted le_total l -> Sorted le_total (insert_row r l).
Proof.
  intros r l H. induction H as [|y l Hl IH Hhd]; simpl.
  - repeat constructor.
  - unfold le_total in *. destruct (row_total r <=? row_total y) eqn:E.
    + apply Z.leb_le in E. repeat constructor; auto.
    + apply Z.leb_gt in E. constructor; [exact IH|].
      destruct l as [|z l]; simpl; [constructor; unfold le_total; lia|].
      destruct (row_total r <=? row_total z); constructor; unfold le_total;
        [lia | now inversion Hhd].
Qed.

Lemma sort_rows_sorted : forall l, Sorted le_total (sort_rows l).
Proof. induction l; simpl; [constructor | now apply insert_row_sorted]. Qed.

Definition total_is (t : Z) (r : row) : bool := row_total r =? t.

(** The inserted row goes before every row of the same total. *)
Lemma insert_row_filter : forall t r l,
  filter (total_is t) (insert_row r l) = filter (total_is t) (r :: l).
Proof.
  intros t r. induction l as [|y l IH]; simpl; [reflexivity|].
  destruct (row_total r <=? row_total y) eqn:E; [reflexivity|].
  apply Z.leb_gt in E. simpl. rewrite IH. simpl. unfold total_is.
  destruct (row_total y =? t) eqn:Ey, (row_total r =? t) eqn:Er; try reflexivity.
  apply Z.eqb_eq in Ey, Er. lia.
Qed.

Lemma sort_rows_stable : forall t l,
  filter (total_is t) (sort_rows l) = filter (total_is t) l.
Proof.
  intros t. induction l as [|r l IH]; simpl; [reflexivity|].
  rewrite insert_row_filter. simpl. now rewrite IH.
Qed.

(** ** The loops *)

Lemma mapM_ok : forall {A B} (f : A -> result B) l ys,
  mapM f l = Ok ys -> Forall2 (fun x y => f x = Ok y) l ys.
Proof.
  induction l as [|x l IH]; intros ys H; simpl in H.
  - injection H as <-. constructor.
  - destruct (f x) as [y|e] eqn:Ef; simpl in H; [|discriminate].
    destruct (mapM f l) as [ys'|e] eqn:Em; simpl in H; [|discriminate].
    injection H as <-. constructor; [exact Ef | now apply IH].
Qed.

Lemma mapM_err : forall {A B} (f : A -> result B) l x e,
  In x l -> f x = Err e -> exists e', mapM f l = Err e'.
Proof.
  induction l as [|y l IH]; intros x e Hin Hf; [destruct Hin|].
  simpl. destruct Hin as [-> | Hin].
  - rewrite Hf. simpl. eauto.
  - destruct (f y); simpl; [|eauto].
    destruct (IH x e Hin Hf) as [e' ->]. simpl. eauto.
Qed.

Lemma get_player_score_key : forall name data,
  get_player_score (lower (strip name)) data = get_player_score name data.
Proof. intros name data. unfold get_player_score. now rewrite key_idem. Qed.

Lemma score_slot_found : forall data w raw p,
  dict_get data (lower (strip raw)) = Some p ->
  score_slot data w raw =
    let st := match status p with Some s => s | None => "OK" end in
    match normalize_topar (topar p) with
    | None => Ok (strip raw, w)
    | Some s => if is_cut st then Ok (strip raw, w) else Ok (strip raw, s)
    end.
Proof.
  intros data w raw p H. unfold score_slot, get_player_score.
  rewrite strip_idem, H. reflexivity.
Qed.

Lemma score_slot_missing : forall data w raw,
  dict_get data (lower (strip raw)) = None -> score_slot data w raw = Err unpack_error.
Proof.
  intros data w raw H. unfold score_slot, get_player_score.
  rewrite strip_idem, H. reflexivity.
Qed.

(** Every adjusted score is either [w] or the normalised score of an
    index entry. *)
Lemma score_slot_ok : forall data w raw name a,
  score_slot data w raw = Ok (name, a) ->
  name = strip raw /\
  (a = w \/ exists p, In p (dict_values data) /\ normalize_topar (topar p) = Some a).
Proof.
  intros data w raw name a H.
  destruct (dict_get data (lower (strip raw))) as [p|] eqn:Hg.
  - rewrite (score_slot_found _ _ _ _ Hg) in H. cbv zeta in H.
    destruct (normalize_topar (topar p)) as [s|] eqn:Hn.
    + destruct (is_cut _); injection H as <- <-; [now split; [|left]|].
      split; [reflexivity|]. right. exists p. split; [exact (dict_get_in _ _ _ Hg) | exact Hn].
    + injection H as <- <-. now split; [|left].
  - rewrite (score_slot_missing _ _ _ Hg) in H. discriminate.
Qed.

Lemma team_row_ok : forall data w t r,
  team_row data w t = Ok r ->
  exists scored, mapM (score_slot data w) (tier_names t) = Ok scored
    /\ r = mkRow (person t) (map fst scored) (map snd scored)
                 (sum_list (firstn 5 (sortZ (map snd scored)))).
Proof.
  intros data w t r H. unfold team_row in H.
  destruct (mapM (score_slot data w) (tier_names t)) as [scored|e]; simpl in H;
    [|discriminate].
  injection H as <-. eauto.
Qed.

Lemma team_row_length : forall data w t r,
  team_row data w t = Ok r -> List.length (row_adjusted r) = 6%nat.
Proof.
  intros data w t r H. destruct (team_row_ok _ _ _ _ H) as (scored & Hm & ->).
  apply mapM_ok, Forall2_length in Hm. simpl. now rewrite length_map, <- Hm.
Qed.

Lemma cycle_ok : forall env teams lb, cycle env teams = Ok lb ->
  exists w rows, fetch_live_scores env <> [] /\ worst_score (fetch_live_scores env) = Some w
    /\ mapM (team_row (fetch_live_scores env) w) teams = Ok rows /\ lb = sort_rows rows.
Proof.
  intros env teams lb H. unfold cycle in H.
  destruct (fetch_live_scores env) as [|kp d] eqn:Ef; [discriminate|].
  destruct (worst_score (kp :: d)) as [w|]; [|discriminate].
  destruct (mapM (team_row (kp :: d) w) teams) as [rows|e] eqn:Em; simpl in H;
    [|discriminate].
  injection H as <-. exists w, rows. repeat split; auto; discriminate.
Qed.

Lemma Forall2_in_l : forall {A B} (R : A -> B -> Prop) l ys x,
  Forall2 R l ys -> In x l -> exists y, R x y.
Proof.
  intros A B R l ys x H. induction H as [|a b l ys Hab _ IH]; intros Hin; [destruct Hin|].
  destruct Hin as [-> | Hin]; eauto.
Qed.

Lemma Forall2_in_r : forall {A B} (R : A -> B -> Prop) l ys y,
  Forall2 R l ys -> In y ys -> exists x, In x l /\ R x y.
Proof.
  intros A B R l ys y H. induction H as [|a b l ys Hab _ IH]; intros Hin; [destruct Hin|].
  destruct Hin as [-> | Hin]; [exists a; split; [left|]; auto|].
  destruct (IH Hin) as (x & Hx & Hr). exists x. split; [right|]; auto.
Qed.

Lemma sorted_last_max : forall l m,
  StronglySorted Z.le (l ++ [m]) -> Forall (fun y => y <= m) l.
Proof.
  induction l as [|x l IH]; intros m H; [constructor|].
  simpl in H. inversion H as [|? ? Hs Hf]; subst.
  constructor; [|now apply IH].
  apply Forall_app in Hf as [_ Hm]. now inversion Hm.
Qed.

Lemma sum_le_bound : forall l w, Forall (fun a => a <= w) l ->
  sum_list l <= Z.of_nat (List.length l) * w.
Proof.
  induction l as [|x l IH]; intros w H; cbn [sum_list List.length]; [lia|].
  rewrite Nat2Z.inj_succ.
  inversion H; subst. specialize (IH w ltac:(assumption)). nia.
Qed.

Lemma strip_lower_key : forall s, lower (strip (strip (lower s))) = lower (strip s).
Proof. intros s. now rewrite strip_idem, strip_lower, lower_idem. Qed.

(** ** Further concrete inputs *)

(** All to-par values unparseable. *)
Definition feedWD : envelope := env_of [pl "Ludvig Aberg" "WD" "A"; pl "Tony Finau" "" "A"].

(** Two records under the same key: the later one replaces the earlier. *)
Definition feedDup : envelope :=
  env_of [pl "Jon Rahm" "10" "A"; pl "JON RAHM " "1" "A"].

(** A player who is not cut and holds the worst score. *)
Definition feed2 : envelope := env_of [pl "Jon Rahm" "5" "A"; pl "Rory McIlroy" "E" "A"].

Definition lb1 : list row :=
  match cycle feed1 [teamA; teamB; teamC] with Ok l => l | Err _ => [] end.

Example cycle_missing : cycle feed1 [teamA; teamMissing] = Err unpack_error.
Proof. vm_compute. reflexivity. Qed.

Example lookup_scenario :
  get_player_score "Tiger Woods " (fetch_live_scores (env_of [pl "tiger woods" "5" "A"]))
  = Ret3 (Some 5) "A" None.
Proof. reflexivity. Qed.

(** * Claims *)

(** C1: a roster name that is absent from the feed index does not get a
    penalised sentinel: [get_player_score] returns a pair on that path
    while the loop unpacks three values, so the refresh cycle ends in an
    error and produces no leaderboard. *)
Theorem missing_player_aborts_cycle : forall env teams t raw,
  In t teams -> In raw (tier_names t) ->
  dict_get (fetch_live_scores env) (lower (strip raw)) = None ->
  exists e, cycle env teams = Err e.
Proof.
  intros env teams t raw Ht Hraw Hg. unfold cycle.
  destruct (fetch_live_scores env) as [|kp d] eqn:Ef; [eexists; reflexivity|].
  destruct (worst_score (kp :: d)) as [w|]; [|eexists; reflexivity].
  destruct (mapM (team_row (kp :: d) w) teams) as [rows|e] eqn:Em; simpl;
    [|eexists; reflexivity].
  exfalso. apply mapM_ok in Em.
  destruct (Forall2_in_l _ _ _ _ Em Ht) as [r Hr].
  destruct (team_row_ok _ _ _ _ Hr) as (scored & Hs & _).
  apply mapM_ok in Hs. destruct (Forall2_in_l _ _ _ _ Hs Hraw) as [y Hy].
  rewrite score_slot_missing in Hy by exact Hg. discriminate.
Qed.

Lemma missing_player_aborts_cycle_witness :
  dict_get (fetch_live_scores feed1) (lower (strip "Phil Mickelson")) = None
  /\ exists e, cycle feed1 [teamMissing] = Err e.
Proof.
  split; [reflexivity|].
  apply (missing_player_aborts_cycle feed1 [teamMissing] teamMissing "Phil Mickelson").
  - left. reflexivity.
  - simpl. tauto.
  - reflexivity.
Defined.

(** C2: when the feed index is non-empty but no entry's to-par token
    normalises, the cycle ends with the [ValueError] of [max] before any
    team is scored, and yields no leaderboard, as an empty feed index
    (the [st.error]/[st.stop] path) does. *)
Theorem no_resolvable_scores_aborts : forall env teams,
  fetch_live_scores env <> [] ->
  (forall p, In p (dict_values (fetch_live_scores env)) -> normalize_topar (topar p) = None) ->
  cycle env teams = Err max_empty_error
  /\ (forall env', fetch_live_scores env' = [] -> cycle env' teams = Err fetch_error).
Proof.
  intros env teams Hne Hnone. split.
  - pose proof (worst_score_spec (fetch_live_scores env)) as Hw.
    unfold cycle. destruct (worst_score (fetch_live_scores env)) as [w|] eqn:E.
    + destruct Hw as [(p & Hp & Hv) _]. rewrite Hnone in Hv by exact Hp. discriminate.
    + destruct (fetch_live_scores env); [contradiction | reflexivity].
  - intros env' H. unfold cycle. now rewrite H.
Qed.

Lemma no_resolvable_scores_aborts_witness :
  cycle feedWD [teamA] = Err max_empty_error
  /\ (forall env', fetch_live_scores env' = [] -> cycle env' [teamA] = Err fetch_error).
Proof.
  apply no_resolvable_scores_aborts.
  - discriminate.
  - intros p Hp. simpl in Hp. destruct Hp as [<- | [<- | []]]; reflexivity.
Defined.

(** C3, as stated (counterexample): [worst_score] is not the maximum over
    every raw feed record: of two records sharing a trimmed, lower-cased
    name only the later one enters the index and the worst-score pool. *)
Lemma worst_score_raw_feed_cex :
  ~ (forall env l, feed_players env = Some l ->
       worst_score (fetch_live_scores env)
       = py_max (keep_some (map (fun p => normalize_topar (topar p)) l))).
Proof.
  intros H. specialize (H feedDup _ eq_refl). vm_compute in H. discriminate.
Qed.

(** C3 (amended): [worst_score] is the maximum of the normalised to-par
    values over the entries of the feed index, whatever their status
    (and there is none when no entry normalises); the index holds, for
    each trimmed, lower-cased name, the last feed record with that name.
    It depends on the feed alone, not on the roster. *)
Theorem worst_score_index_max : forall env,
  (match worst_score (fetch_live_scores env) with
   | Some w =>
       (exists p, In p (dict_values (fetch_live_scores env))
                  /\ normalize_topar (topar p) = Some w)
       /\ (forall p v, In p (dict_values (fetch_live_scores env)) ->
             normalize_topar (topar p) = Some v -> v <= w)
   | None => forall p, In p (dict_values (fetch_live_scores env)) ->
               normalize_topar (topar p) = None
   end)
  /\ (forall q, In q (dict_values (fetch_live_scores env)) <->
        exists l l1 l2, feed_players env = Some l /\ l = l1 ++ q :: l2
          /\ Forall (fun r => player_key r <> player_key q) l2).
Proof.
  intros env. split; [apply worst_score_spec|].
  intros q. unfold fetch_live_scores. destruct (feed_players env) as [l|].
  - rewrite build_index_values. split.
    + intros (l1 & l2 & H1 & H2). exists l, l1, l2. auto.
    + intros (l' & l1 & l2 & H & H1 & H2). injection H as <-. eauto.
  - split; [intros []|]. intros (l' & _ & _ & H & _). discriminate.
Qed.

(** C4: the total of a team row is the sum of its adjusted scores but one
    maximal one, i.e. of its five smallest. *)
Theorem team_total_best_five : forall data w t r,
  team_row data w t = Ok r ->
  List.length (row_adjusted r) = 6%nat
  /\ exists m rest, Permutation (row_adjusted r) (m :: rest)
       /\ Forall (fun y => y <= m) rest /\ row_total r = sum_list rest.
Proof.
  intros data w t r H. split; [exact (team_row_length _ _ _ _ H)|].
  pose proof (team_row_length _ _ _ _ H) as Hlen.
  destruct (team_row_ok _ _ _ _ H) as (scored & _ & ->).
  cbn [row_adjusted row_total] in Hlen |- *.
  set (adj := map snd scored) in *.
  pose proof (sortZ_perm adj) as Hp. pose proof (sortZ_sorted adj) as Hs.
  assert (Hl : List.length (sortZ adj) = 6%nat)
    by (rewrite (Permutation_length Hp); exact Hlen).
  destruct (exists_last (l := sortZ adj)) as (rest & m & Heq);
    [intros E; rewrite E in Hl; discriminate|].
  rewrite Heq in Hp, Hs, Hl. rewrite length_app in Hl. simpl in Hl.
  exists m, rest. split; [|split].
  - rewrite <- Hp. symmetry. apply Permutation_cons_append.
  - apply sorted_last_max. apply Sorted_StronglySorted; [exact Z.le_trans | exact Hs].
  - rewrite Heq, firstn_app. replace (5 - List.length rest)%nat with 0%nat by lia.
    rewrite firstn_all2 by lia. simpl. now rewrite app_nil_r.
Qed.

Lemma team_total_best_five_witness :
  team_row (fetch_live_scores feed1) 5 teamA
  = Ok (mkRow "Ann" ["Scottie Scheffler"; "rory mcilroy"; "Tiger Woods"; "Jon Rahm";
                     "Bryson DeChambeau"; "Ludvig Aberg"] [-8; 0; 5; 3; -2; 5] (-2))
  /\ List.length [-8; 0; 5; 3; -2; 5] = 6%nat
  /\ exists m rest, Permutation [-8; 0; 5; 3; -2; 5] (m :: rest)
       /\ Forall (fun y => y <= m) rest /\ -2 = sum_list rest.
Proof.
  assert (H : team_row (fetch_live_scores feed1) 5 teamA
    = Ok (mkRow "Ann" ["Scottie Scheffler"; "rory mcilroy"; "Tiger Woods"; "Jon Rahm";
                       "Bryson DeChambeau"; "Ludvig Aberg"] [-8; 0; 5; 3; -2; 5] (-2)))
    by reflexivity.
  split; [exact H|].
  exact (team_total_best_five _ _ _ _ H).
Defined.

(** C5, as stated (counterexample): tokens other than ["E"] and the
    canonical [str(n)] spellings can normalise, e.g. ["+3"]. *)
Lemma normalize_other_tokens_cex :
  ~ (forall s, s <> "E" -> (forall n, s <> py_str n) -> normalize_topar (Some s) = None).
Proof.
  intros H.
  assert (Hn : forall n, "+3" <> py_str n).
  { intros n Heq. destruct (py_str_spec n) as (c & s & Hs & Hc).
    rewrite Hs in Heq. inversion Heq; subst.
    destruct Hc as [Hc | Hc]; [discriminate | vm_compute in Hc; discriminate]. }
  specialize (H "+3" ltac:(discriminate) Hn). vm_compute in H. discriminate.
Qed.

(** C5 (amended): [normalize_topar "E" = 0]; [normalize_topar (str n) = n]
    for every integer [n] of at most 4300 digits, while a digit string of
    more than 4300 digits gives [None] ([int()]'s default digit limit);
    any other token normalises exactly as CPython's [int()] parses it
    (surrounding space, \t, \n, \v, \f or \r, a sign, leading zeros and
    single underscores between digits are accepted, the separators
    \x1c .. \x1f are not), so every token that [int()] rejects (empty,
    holding a letter, a decimal point, ...) and an absent field map to
    [None]; the function is total (never raises). *)
Theorem normalize_topar_spec :
  normalize_topar (Some "E") = Some 0
  /\ (forall n, Z.abs n < 10 ^ 4300 -> normalize_topar (Some (py_str n)) = Some n)
  /\ (forall s, all_chars is_digit s = true -> (4300 < String.length s)%nat ->
        normalize_topar (Some s) = None)
  /\ (forall s, s <> "E" -> normalize_topar (Some s) = py_int s)
  /\ (forall s, s <> "E" -> any_char is_alpha s = true -> normalize_topar (Some s) = None)
  /\ normalize_topar (Some "") = None
  /\ normalize_topar (Some "3.5") = None
  /\ normalize_topar (Some "-") = None
  /\ normalize_topar None = None
  /\ normalize_topar (Some "+3") = Some 3
  /\ normalize_topar (Some "007") = Some 7
  /\ normalize_topar (Some (String "028" "5")) = None.
Proof.
  split; [reflexivity|]. split; [|split; [|split]].
  - intros n Hn. rewrite normalize_not_E by apply py_str_not_E.
    apply py_int_py_str. exact Hn.
  - intros s Hs Hl. rewrite normalize_not_E.
    + now apply py_int_too_long.
    + intros ->. discriminate.
  - exact normalize_not_E.
  - split.
    + intros s Hs Ha. rewrite normalize_not_E by exact Hs. now apply py_int_alpha.
    + repeat split; reflexivity.
Qed.

(** C6, as stated (counterexample): the adjusted score of a found player
    can equal [worst_score] without the player being cut or unparseable:
    the player holding the worst score keeps it as its own. *)
Lemma found_player_iff_cex :
  ~ (forall env raw p w a,
       worst_score (fetch_live_scores env) = Some w ->
       dict_get (fetch_live_scores env) (lower (strip raw)) = Some p ->
       score_slot (fetch_live_scores env) w raw = Ok (strip raw, a) ->
       (a = w <-> is_cut (match status p with Some s => s | None => "OK" end) = true
                  \/ normalize_topar (topar p) = None)).
Proof.
  intros H.
  specialize (H feed2 "Jon Rahm" (pl "Jon Rahm" "5" "A") 5 5 eq_refl eq_refl eq_refl).
  destruct H as [H _]. specialize (H eq_refl).
  vm_compute in H. destruct H; discriminate.
Qed.

(** C6 (amended): for a player found in the feed index, with status
    defaulting to ["OK"], the adjusted score is [worst_score] when the
    status is ["C"] or ["c"] (i.e. upper-cases to ["C"]) or the to-par
    token does not normalise; otherwise it is the normalised to-par value
    (which may itself equal [worst_score]). *)
Theorem found_player_adjusted : forall data w raw p,
  dict_get data (lower (strip raw)) = Some p ->
  let st := match status p with Some s => s | None => "OK" end in
  ((normalize_topar (topar p) = None \/ st = "C" \/ st = "c") ->
     score_slot data w raw = Ok (strip raw, w))
  /\ (forall v, normalize_topar (topar p) = Some v -> st <> "C" -> st <> "c" ->
        score_slot data w raw = Ok (strip raw, v)).
Proof.
  intros data w raw p Hg st. rewrite (score_slot_found _ _ _ _ Hg). cbv zeta.
  fold st. split.
  - intros Hc. destruct (normalize_topar (topar p)) as [v|]; [|reflexivity].
    destruct Hc as [Hc | Hc]; [discriminate|].
    now rewrite (proj2 (upper_is_C st) Hc).
  - intros v Hv H1 H2. rewrite Hv.
    destruct (is_cut st) eqn:E; [|reflexivity].
    apply upper_is_C in E. destruct E; contradiction.
Qed.

Lemma found_player_adjusted_witness :
  dict_get (fetch_live_scores feed1) (lower (strip " tiger WOODS")) = Some (pl "Tiger Woods" "5" "C")
  /\ score_slot (fetch_live_scores feed1) 5 " tiger WOODS" = Ok ("tiger WOODS", 5).
Proof.
  assert (Hg : dict_get (fetch_live_scores feed1) (lower (strip " tiger WOODS"))
               = Some (pl "Tiger Woods" "5" "C")) by reflexivity.
  split; [exact Hg|].
  apply (proj1 (found_player_adjusted (fetch_live_scores feed1) 5 " tiger WOODS" _ Hg)).
  right. left. reflexivity.
Defined.

(** C7: a produced leaderboard is sorted by ascending total, and it is
    the rows built in roster order, reordered stably: rows of equal total
    keep their roster order. *)
Theorem leaderboard_sorted_stable : forall env teams lb,
  cycle env teams = Ok lb ->
  Sorted le_total lb
  /\ exists w rows, worst_score (fetch_live_scores env) = Some w
       /\ mapM (team_row (fetch_live_scores env) w) teams = Ok rows
       /\ map row_team rows = map person teams
       /\ Permutation lb rows
       /\ (forall t, filter (total_is t) lb = filter (total_is t) rows).
Proof.
  intros env teams lb H. destruct (cycle_ok _ _ _ H) as (w & rows & _ & Hw & Hm & ->).
  split; [apply sort_rows_sorted|].
  exists w, rows. repeat split; auto.
  - apply mapM_ok in Hm. clear -Hm.
    induction Hm as [|t r ts rs Hr _ IH]; [reflexivity|]. simpl. rewrite IH.
    destruct (team_row_ok _ _ _ _ Hr) as (scored & _ & ->). reflexivity.
  - apply sort_rows_perm.
  - intros t. apply sort_rows_stable.
Qed.

Lemma leaderboard_sorted_stable_witness :
  cycle feed1 [teamA; teamB; teamC] = Ok lb1
  /\ Sorted le_total lb1
  /\ exists w rows, worst_score (fetch_live_scores feed1) = Some w
       /\ mapM (team_row (fetch_live_scores feed1) w) [teamA; teamB; teamC] = Ok rows
       /\ map row_team rows = map person [teamA; teamB; teamC]
       /\ Permutation lb1 rows
       /\ (forall t, filter (total_is t) lb1 = filter (total_is t) rows).
Proof.
  assert (H : cycle feed1 [teamA; teamB; teamC] = Ok lb1) by (vm_compute; reflexivity).
  split; [exact H|]. exact (leaderboard_sorted_stable _ _ _ H).
Defined.

(** C8: player lookup ignores case and surrounding whitespace: resolving
    a name gives the same result as resolving it trimmed and lower-cased
    (in either order), and the feed index is keyed by the trimmed,
    lower-cased [full_name] of each record. *)
Theorem lookup_case_ws_insensitive :
  (forall name data,
     get_player_score (lower (strip name)) data = get_player_score name data
     /\ get_player_score (strip (lower name)) data = get_player_score name data)
  /\ (forall env,
       Forall (fun kp => fst kp = lower (strip (full_name (snd kp))))
              (fetch_live_scores env)).
Proof.
  split.
  - intros name data. split; [apply get_player_score_key|].
    unfold get_player_score. now rewrite strip_lower_key.
  - intros env. unfold fetch_live_scores.
    destruct (feed_players env); [apply build_index_keys | constructor].
Qed.

(** C9: when some entry normalises, every adjusted score of a produced
    leaderboard is at most [worst_score], and so is every team total at
    most five times it. *)
Theorem adjusted_le_worst : forall env teams lb w,
  worst_score (fetch_live_scores env) = Some w ->
  cycle env teams = Ok lb ->
  forall r, In r lb -> Forall (fun a => a <= w) (row_adjusted r) /\ row_total r <= 5 * w.
Proof.
  intros env teams lb w Hw H r Hr.
  destruct (cycle_ok _ _ _ H) as (w' & rows & _ & Hw' & Hm & ->).
  rewrite Hw in Hw'. injection Hw' as <-.
  apply (Permutation_in _ (sort_rows_perm rows)) in Hr.
  apply mapM_ok in Hm. destruct (Forall2_in_r _ _ _ _ Hm Hr) as (t & _ & Ht).
  pose proof (team_row_length _ _ _ _ Ht) as Hlen.
  destruct (team_row_ok _ _ _ _ Ht) as (scored & Hs & ->).
  cbn [row_adjusted row_total] in Hlen |- *.
  pose proof (worst_score_spec (fetch_live_scores env)) as Hspec.
  rewrite Hw in Hspec. destruct Hspec as [_ Hmax].
  assert (Hadj : Forall (fun a => a <= w) (map snd scored)).
  { apply Forall_forall. intros a Ha. apply in_map_iff in Ha as ([name a'] & <- & Hin).
    cbn [snd]. apply mapM_ok in Hs.
    destruct (Forall2_in_r _ _ _ _ Hs Hin) as (raw & _ & Hslot).
    destruct (score_slot_ok _ _ _ _ _ Hslot) as [_ [-> | (p & Hp & Hv)]]; [lia|].
    exact (Hmax p a' Hp Hv). }
  split; [exact Hadj|].
  assert (Hsort : Forall (fun a => a <= w) (sortZ (map snd scored))).
  { apply Forall_forall. intros a Ha. rewrite Forall_forall in Hadj.
    apply Hadj. now apply (Permutation_in _ (sortZ_perm _)). }
  assert (Hfl : List.length (firstn 5 (sortZ (map snd scored))) = 5%nat).
  { rewrite length_firstn, (Permutation_length (sortZ_perm _)), Hlen. reflexivity. }
  pose proof (sum_le_bound (firstn 5 (sortZ (map snd scored))) w) as Hb.
  rewrite Hfl in Hb. apply Hb.
  apply Forall_forall. intros a Ha. rewrite Forall_forall in Hsort.
  apply Hsort. rewrite <- (firstn_skipn 5 (sortZ (map snd scored))).
  apply in_or_app. now left.
Qed.

Lemma adjusted_le_worst_witness :
  worst_score (fetch_live_scores feed1) = Some 5
  /\ cycle feed1 [teamA; teamB; teamC] = Ok lb1
  /\ (forall r, In r lb1 ->
        Forall (fun a => a <= 5) (row_adjusted r) /\ row_total r <= 5 * 5).
Proof.
  assert (Hw : worst_score (fetch_live_scores feed1) = Some 5) by reflexivity.
  assert (H : cycle feed1 [teamA; teamB; teamC] = Ok lb1) by (vm_compute; reflexivity).
  split; [exact Hw|]. split; [exact H|].
  exact (adjusted_le_worst _ _ _ _ Hw H).
Defined.

(** C10, as stated (counterexample): [normalize_topar] returns 0 not only
    for ["E"]: the integer spelling ["0"] gives 0 as well. *)
Lemma even_par_only_E_cex :
  ~ (forall s, normalize_topar (Some s) = Some 0 -> s = "E").
Proof. intros H. specialize (H "0" eq_refl). discriminate. Qed.

(** C10 (amended): the letter token for even par is matched exactly:
    ["E"] gives 0 and every other token holding a letter, such as [" E "]
    or ["e"], gives [None]; integer tokens (of at most 4300 digits),
    including spellings of zero, go through [int()] and tolerate
    surrounding whitespace (space, \t, \n, \v, \f, \r) and an explicit
    sign ([" +3 "] gives 3). *)
Theorem even_par_token_exact :
  normalize_topar (Some "E") = Some 0
  /\ (forall s, s <> "E" -> any_char is_alpha s = true -> normalize_topar (Some s) = None)
  /\ normalize_topar (Some " E ") = None
  /\ normalize_topar (Some "e") = None
  /\ normalize_topar (Some "0") = Some 0
  /\ (forall a b n, all_chars is_int_space a = true -> all_chars is_int_space b = true ->
        Z.abs n < 10 ^ 4300 ->
        normalize_topar (Some (a ++ py_str n ++ b)%string) = Some n
        /\ (0 <= n -> normalize_topar (Some (a ++ "+" ++ py_str n ++ b)%string) = Some n))
  /\ normalize_topar (Some " +3 ") = Some 3
  /\ normalize_topar (Some " -3 ") = Some (-3).
Proof.
  split; [reflexivity|]. split.
  - intros s Hs Ha. rewrite normalize_not_E by exact Hs. now apply py_int_alpha.
  - split; [reflexivity|]. split; [reflexivity|]. split; [reflexivity|].
    split; [|split; reflexivity].
    intros a b n Ha Hb Hn. split.
    + rewrite normalize_not_E by (apply padded_not_E; [exact Ha | exact Hb | apply py_str_not_E]).
      rewrite py_int_padding by assumption. now apply py_int_py_str.
    + intros Hpos.
      change (a ++ "+" ++ py_str n ++ b)%string with (a ++ ("+" ++ py_str n) ++ b)%string.
      rewrite normalize_not_E
        by (apply padded_not_E; [exact Ha | exact Hb | intros Heq; discriminate]).
      rewrite py_int_padding by assumption. apply py_int_plus_py_str.
      rewrite Z.abs_eq in Hn by exact Hpos. split; [exact Hpos | exact Hn].
Qed.

(** * The rest of the page *)

(** [all_player_scores] read back from the rows. *)
Definition all_scores (rows : list row) : list (string * Z) :=
  List.concat (map (fun r => combine (row_players r) (row_adjusted r)) rows).

Lemma combine_fst_snd : forall {A B} (l : list (A * B)), combine (map fst l) (map snd l) = l.
Proof. induction l as [|[a b] l IH]; simpl; [reflexivity | now rewrite IH]. Qed.

Lemma score_teams_mapM : forall data w teams,
  score_teams data w teams
  = match mapM (team_row data w) teams with
    | Ok rows => Ok (rows, all_scores rows)
    | Err e => Err e
    end.
Proof.
  intros data w. induction teams as [|t ts IH]; [reflexivity|].
  cbn [score_teams mapM]. rewrite IH.
  destruct (mapM (score_slot data w) (tier_names t)) as [scored|e] eqn:Es.
  2:{ assert (Ht : team_row data w t = Err e) by (unfold team_row; now rewrite Es).
      now rewrite Ht. }
  assert (Ht : team_row data w t = Ok (mkRow (person t) (map fst scored) (map snd scored)
                 (sum_list (firstn 5 (sortZ (map snd scored))))))
    by (unfold team_row; now rewrite Es).
  rewrite Ht. cbn [bind].
  destruct (mapM (team_row data w) ts) as [rows|e]; [|reflexivity].
  cbn [bind fst snd]. unfold all_scores. cbn [map List.concat row_players row_adjusted].
  now rewrite combine_fst_snd.
Qed.

Lemma page_unfold : forall env teams,
  page env teams
  = match fetch_live_scores env with
    | [] => PageErr (PyError fetch_error)
    | _ =>
        match worst_score (fetch_live_scores env) with
        | None => PageErr (PyError max_empty_error)
        | Some w =>
            match mapM (team_row (fetch_live_scores env) w) teams with
            | Err e => PageErr (PyError e)
            | Ok rows =>
                match sidebar (sort_rows rows) (all_scores rows) teams with
                | PageOk s => PageOk (sort_rows rows, s)
                | PageErr e => PageErr e
                end
            end
        end
    end.
Proof.
  intros env teams. unfold page. cbv zeta.
  destruct (fetch_live_scores env) as [|kp d]; [reflexivity|].
  destruct (worst_score (kp :: d)) as [w|]; [|reflexivity].
  rewrite score_teams_mapM. destruct (mapM (team_row (kp :: d) w) teams); reflexivity.
Qed.

Lemma mapM_err_inv : forall {A B} (f : A -> result B) l e,
  mapM f l = Err e -> exists x, In x l /\ f x = Err e.
Proof.
  induction l as [|x l IH]; intros e H; simpl in H; [discriminate|].
  destruct (f x) as [y|e'] eqn:Ef; simpl in H.
  - destruct (mapM f l) as [ys|e''] eqn:Em; simpl in H; [discriminate|].
    injection H as <-. destruct (IH e'' eq_refl) as (x' & Hin & Hx).
    exists x'. split; [right|]; assumption.
  - injection H as ->. exists x. split; [left; reflexivity | assumption].
Qed.

(** The only error raised inside the team loop is the failed unpacking. *)
Lemma team_loop_error : forall data w teams e,
  mapM (team_row data w) teams = Err e -> e = unpack_error.
Proof.
  intros data w teams e H. apply mapM_err_inv in H as (t & _ & Ht).
  unfold team_row in Ht.
  destruct (mapM (score_slot data w) (tier_names t)) as [scored|e'] eqn:Em;
    simpl in Ht; [discriminate|]. injection Ht as ->.
  apply mapM_err_inv in Em as (raw & _ & Hr).
  destruct (dict_get data (lower (strip raw))) as [p|] eqn:Hg.
  - rewrite (score_slot_found _ _ _ _ Hg) in Hr. cbv zeta in Hr.
    destruct (normalize_topar (topar p)); [destruct (is_cut _)|]; discriminate.
  - rewrite (score_slot_missing _ _ _ Hg) in Hr. now injection Hr.
Qed.

Lemma build_index_nil : forall l, build_index l = [] <-> l = [].
Proof.
  intros l. split; [|intros ->; reflexivity].
  destruct l as [|x l _] using rev_ind; [reflexivity|].
  rewrite build_index_snoc. destruct (build_index l) as [|[k v] d]; simpl;
    [discriminate|]. destruct (String.eqb _ _); discriminate.
Qed.

(** Under the index invariant, a lookup finds exactly the stored record
    of that key. *)
Lemma dict_get_index : forall d k p, index_inv d ->
  dict_get d k = Some p <-> In p (dict_values d) /\ player_key p = k.
Proof.
  induction d as [|[k' v'] d IH]; intros k p [Hf Hn].
  - split; [discriminate | intros [[] _]].
  - inversion Hf as [|? ? Hk Hf']; subst. simpl in Hk.
    inversion Hn as [|? ? Hnot Hn']; subst.
    change (dict_values ((player_key v', v') :: d)) with (v' :: dict_values d).
    cbn [dict_get]. cbn [In].
    destruct (String.eqb k (player_key v')) eqn:E.
    + apply String.eqb_eq in E. subst k. split.
      * intros H. injection H as <-. auto.
      * intros [[<- | Hin] Hkey]; [reflexivity|].
        exfalso. apply Hnot. rewrite <- Hkey. now apply index_key_in.
    + apply String.eqb_neq in E. rewrite (IH k p (conj Hf' Hn')). split.
      * intros [Hin Hkey]. split; [right|]; assumption.
      * intros [[<- | Hin] Hkey]; [congruence|]. split; assumption.
Qed.

(** X2: the "Could not fetch live Masters data." stop happens exactly when
    the envelope has no recognised player list or the list is empty. *)
Theorem fetch_error_iff_no_players : forall env teams,
  cycle env teams = Err fetch_error
  <-> feed_players env = None \/ feed_players env = Some [].
Proof.
  intros env teams. unfold cycle. cbv zeta.
  assert (Hf : fetch_live_scores env = [] <-> feed_players env = None \/ feed_players env = Some []).
  { unfold fetch_live_scores. destruct (feed_players env) as [l|].
    - rewrite build_index_nil. split; [intros ->; auto | intros [H | H]; congruence].
    - split; auto. }
  rewrite <- Hf. destruct (fetch_live_scores env) as [|kp d] eqn:E; [tauto|].
  split; [|discriminate]. intros H.
  destruct (worst_score (kp :: d)) as [w|]; [|discriminate].
  destruct (mapM (team_row (kp :: d) w) teams) as [rows|e] eqn:Em; simpl in H;
    [discriminate|]. injection H as ->. apply team_loop_error in Em. discriminate.
Qed.

(** X3: looking a key up in the live index finds the last feed record
    whose trimmed, lower-cased name is that key. *)
Theorem lookup_last_record : forall env k p,
  dict_get (fetch_live_scores env) k = Some p
  <-> exists l l1 l2, feed_players env = Some l /\ l = l1 ++ p :: l2
       /\ player_key p = k /\ Forall (fun r => player_key r <> k) l2.
Proof.
  intros env k p. unfold fetch_live_scores. destruct (feed_players env) as [l|].
  - rewrite dict_get_index by apply build_index_inv. rewrite build_index_values. split.
    + intros ((l1 & l2 & H1 & H2) & <-). exists l, l1, l2. auto.
    + intros (l' & l1 & l2 & H & H1 & <- & H2). injection H as <-. eauto.
  - split; [discriminate|]. intros (l' & _ & _ & H & _). discriminate.
Qed.

(** [min(all_player_scores, key=lambda x: x[1])] returns the first pair of
    least score. *)
Definition first_min (l : list (string * Z)) (m : string * Z) : Prop :=
  exists pre post, l = pre ++ m :: post
    /\ Forall (fun x => snd m < snd x) pre /\ Forall (fun x => snd m <= snd x) post.

Lemma fold_first_min : forall xs P cur, first_min P cur ->
  first_min (P ++ xs)
    (fold_left (fun cur y => if snd y <? snd cur then y else cur) xs cur).
Proof.
  induction xs as [|y xs IH]; intros P cur (pre & post & HP & Hpre & Hpost).
  - rewrite app_nil_r. exists pre, post. auto.
  - cbn [fold_left]. replace (P ++ y :: xs) with ((P ++ [y]) ++ xs)
      by now rewrite <- app_assoc. apply IH.
    rewrite Forall_forall in Hpre, Hpost.
    destruct (snd y <? snd cur) eqn:E; [apply Z.ltb_lt in E | apply Z.ltb_ge in E].
    + exists P, []. split; [reflexivity|]. split; [|constructor].
      apply Forall_forall. intros x Hx. subst P.
      apply in_app_or in Hx as [Hx | [<- | Hx]];
        [specialize (Hpre x Hx) | | specialize (Hpost x Hx)]; lia.
    + exists pre, (post ++ [y]). split; [|split].
      * subst P. now rewrite <- app_assoc.
      * now apply Forall_forall.
      * apply Forall_app. split; [now apply Forall_forall | now repeat constructor].
Qed.

Lemma py_min_snd_spec : forall l m, py_min_snd l = Some m -> first_min l m.
Proof.
  intros [|x xs] m H; [discriminate|]. injection H as <-.
  apply (fold_first_min xs [x] x). exists [], []. repeat split; constructor.
Qed.

Lemma first_min_le : forall l m x, first_min l m -> In x l -> snd m <= snd x.
Proof.
  intros l m x (pre & post & -> & Hpre & Hpost) Hx. rewrite Forall_forall in Hpre, Hpost.
  apply in_app_or in Hx as [Hx | [<- | Hx]];
    [specialize (Hpre x Hx) | | specialize (Hpost x Hx)]; lia.
Qed.

Lemma page_ok_inv : forall env teams lb s, page env teams = PageOk (lb, s) ->
  exists w rows, fetch_live_scores env <> [] /\ worst_score (fetch_live_scores env) = Some w
    /\ mapM (team_row (fetch_live_scores env) w) teams = Ok rows /\ lb = sort_rows rows
    /\ sidebar (sort_rows rows) (all_scores rows) teams = PageOk s.
Proof.
  intros env teams lb s H. rewrite page_unfold in H.
  destruct (fetch_live_scores env) as [|kp d]; [discriminate|].
  destruct (worst_score (kp :: d)) as [w|]; [|discriminate].
  destruct (mapM (team_row (kp :: d) w) teams) as [rows|e] eqn:Em; [|discriminate].
  destruct (sidebar (sort_rows rows) (all_scores rows) teams) as [s'|e] eqn:Es;
    [|discriminate].
  injection H as <- <-. exists w, rows.
  repeat split; first [discriminate | assumption | reflexivity].
Qed.

Lemma sidebar_ok_inv : forall lb aps teams s, sidebar lb aps teams = PageOk s ->
  exists r rest, lb = r :: rest /\ leader s = row_team r
    /\ py_min_snd aps = Some (best_player s) /\ tier_picks s = tier_summary teams.
Proof.
  intros [|r rest] aps teams s H; [discriminate|]. unfold sidebar in H.
  destruct (py_min_snd aps) as [bp|] eqn:E; [|discriminate].
  injection H as <-. exists r, rest. auto.
Qed.


Lemma in_all_scores : forall data w teams rows r,
  mapM (team_row data w) teams = Ok rows -> In r rows ->
  forall a, In a (row_adjusted r) -> exists n, In (n, a) (all_scores rows).
Proof.
  intros data w teams rows r Hm Hr a Ha.
  destruct (Forall2_in_r _ _ _ _ (mapM_ok _ _ _ Hm) Hr) as (t & _ & Ht).
  destruct (team_row_ok _ _ _ _ Ht) as (scored & _ & ->). simpl in Ha.
  apply in_map_iff in Ha as ([n a'] & Ha' & Hin). simpl in Ha'. subst a'.
  exists n. unfold all_scores. apply in_concat.
  exists (combine (map fst scored) (map snd scored)).
  split; [|now rewrite combine_fst_snd]. apply in_map_iff. eexists; split; [|exact Hr].
  reflexivity.
Qed.

Lemma all_scores_nonempty : forall data w teams rows,
  mapM (team_row data w) teams = Ok rows -> teams <> [] -> all_scores rows <> [].
Proof.
  intros data w [|t ts] rows Hm Hne; [congruence|].
  apply mapM_ok in Hm. inversion Hm as [|? r ? rs Ht _]; subst.
  destruct (team_row_ok _ _ _ _ Ht) as (scored & Hs & ->).
  apply mapM_ok, Forall2_length in Hs.
  unfold all_scores. cbn [map List.concat row_players row_adjusted].
  rewrite combine_fst_snd. destruct scored; [discriminate|]. discriminate.
Qed.

Lemma sum_ge_bound : forall l w, Forall (fun a => w <= a) l ->
  Z.of_nat (List.length l) * w <= sum_list l.
Proof.
  induction l as [|x l IH]; intros w H; cbn [sum_list List.length]; [lia|].
  rewrite Nat2Z.inj_succ.
  inversion H; subst. specialize (IH w ltac:(assumption)). nia.
Qed.

Lemma in_firstn_in : forall {A} n (l : list A) x, In x (firstn n l) -> In x l.
Proof.
  intros A n l x H. rewrite <- (firstn_skipn n l). apply in_or_app. now left.
Qed.


(** X6: once the live data is scored, the sidebar fails with an
    [IndexError] exactly when there are no teams; otherwise the page
    shows the cycle's leaderboard. *)
Theorem index_error_iff_no_teams : forall env teams lb,
  cycle env teams = Ok lb ->
  (page env teams = PageErr (IndexError "list index out of range") <-> teams = [])
  /\ (teams <> [] -> exists s, page env teams = PageOk (lb, s)).
Proof.
  intros env teams lb H.
  destruct (cycle_ok _ _ _ H) as (w & rows & Hne & Hw & Hm & ->).
  rewrite page_unfold.
  destruct (fetch_live_scores env) as [|kp d]; [congruence|].
  rewrite Hw, Hm. destruct teams as [|t ts].
  - simpl in Hm. injection Hm as <-. split; [tauto | congruence].
  - assert (Hrows : sort_rows rows <> []).
    { intros E. apply mapM_ok in Hm. inversion Hm; subst.
      pose proof (Permutation_length (sort_rows_perm (y :: l'))) as Hl.
      rewrite E in Hl. discriminate. }
    destruct (all_scores rows) as [|x xs] eqn:Ea;
      [exfalso; exact (all_scores_nonempty _ _ _ _ Hm ltac:(discriminate) Ea)|].
    unfold sidebar. destruct (sort_rows rows) as [|r rest]; [congruence|].
    simpl. split; [split; discriminate|]. eauto.
Qed.

(** X7: the sidebar's best player is the first entry of
    [all_player_scores] with the least adjusted score; [all_player_scores]
    holds each team's (stripped name, adjusted score) pairs in roster and
    tier order. *)
Theorem best_player_first_least : forall env teams lb s,
  page env teams = PageOk (lb, s) ->
  exists w rows aps pre post,
    score_teams (fetch_live_scores env) w teams = Ok (rows, aps) /\ lb = sort_rows rows
    /\ aps = pre ++ best_player s :: post
    /\ Forall (fun x => snd (best_player s) < snd x) pre
    /\ Forall (fun x => snd (best_player s) <= snd x) post.
Proof.
  intros env teams lb s H.
  destruct (page_ok_inv _ _ _ _ H) as (w & rows & _ & _ & Hm & -> & Hs).
  destruct (sidebar_ok_inv _ _ _ _ Hs) as (r & rest & _ & _ & Hb & _).
  destruct (py_min_snd_spec _ _ Hb) as (pre & post & Ha & Hpre & Hpost).
  exists w, rows, (all_scores rows), pre, post.
  rewrite score_teams_mapM, Hm. auto.
Qed.

(** X8: no adjusted score on the leaderboard is below the best player's,
    so every team total is at least five times the best score. *)
Theorem totals_bounded_by_best : forall env teams lb s,
  page env teams = PageOk (lb, s) -> forall r, In r lb ->
  Forall (fun a => snd (best_player s) <= a) (row_adjusted r)
  /\ 5 * snd (best_player s) <= row_total r.
Proof.
  intros env teams lb s H r Hr.
  destruct (page_ok_inv _ _ _ _ H) as (w & rows & _ & _ & Hm & -> & Hs).
  destruct (sidebar_ok_inv _ _ _ _ Hs) as (r0 & rest & _ & _ & Hb & _).
  apply py_min_snd_spec in Hb.
  apply (Permutation_in _ (sort_rows_perm rows)) in Hr.
  assert (Hadj : Forall (fun a => snd (best_player s) <= a) (row_adjusted r)).
  { apply Forall_forall. intros a Ha.
    destruct (in_all_scores _ _ _ _ _ Hm Hr a Ha) as (n & Hn).
    exact (first_min_le _ _ _ Hb Hn). }
  split; [exact Hadj|].
  destruct (Forall2_in_r _ _ _ _ (mapM_ok _ _ _ Hm) Hr) as (t & _ & Ht).
  pose proof (team_row_length _ _ _ _ Ht) as Hlen.
  destruct (team_row_ok _ _ _ _ Ht) as (scored & _ & Hr').
  rewrite Hr' in Hadj, Hlen |- *. cbn [row_total row_adjusted] in *.
  set (b := snd (best_player s)) in *.
  assert (Hf : Forall (fun a => b <= a) (firstn 5 (sortZ (map snd scored)))).
  { apply Forall_forall. intros a Ha. apply in_firstn_in in Ha.
    apply (Permutation_in _ (sortZ_perm _)) in Ha.
    rewrite Forall_forall in Hadj. now apply Hadj. }
  pose proof (sum_ge_bound _ _ Hf) as Hsum.
  rewrite length_firstn, (Permutation_length (sortZ_perm _)), Hlen in Hsum.
  change (Z.of_nat (Nat.min 5 6)) with 5 in Hsum. exact Hsum.
Qed.

(** ** Picks by tier *)

(** [tier_counts[f"Tier {i}"]] after the loop: the picks of tier [i]
    counted over the teams in order. *)
Definition pick_counts (i : nat) (teams : list team) : dict nat :=
  fold_left (fun d t => dict_incr d (strip (tier_of t i))) teams [].

(** The inner loop of [tier_counts] for one team. *)
Definition add_team (tc : dict (dict nat)) (t : team) : dict (dict nat) :=
  fold_left (fun tc i => count_pick tc (tier_key i) (strip (tier_of t i))) (seq 1 6) tc.

Lemma add_team_first : forall t,
  add_team [] t = map (fun i => (tier_key i, dict_incr [] (strip (tier_of t i)))) (seq 1 6).
Proof. intros t. reflexivity. Qed.

Lemma add_team_next : forall (c : nat -> dict nat) t,
  add_team (map (fun i => (tier_key i, c i)) (seq 1 6)) t
  = map (fun i => (tier_key i, dict_incr (c i) (strip (tier_of t i)))) (seq 1 6).
Proof. intros c t. reflexivity. Qed.

Lemma count_picks_shape : forall teams, teams <> [] ->
  count_picks teams = map (fun i => (tier_key i, pick_counts i teams)) (seq 1 6).
Proof.
  induction teams as [|t ts IH] using rev_ind; intros Hne; [congruence|].
  change (count_picks (ts ++ [t])) with (fold_left add_team (ts ++ [t]) []).
  rewrite fold_left_app. cbn [fold_left].
  destruct ts as [|t0 ts0].
  - rewrite add_team_first. reflexivity.
  - change (fold_left add_team (t0 :: ts0) []) with (count_picks (t0 :: ts0)).
    rewrite IH by discriminate.
    rewrite (add_team_next (fun i => pick_counts i (t0 :: ts0))).
    apply map_ext. intros i. unfold pick_counts. now rewrite fold_left_app.
Qed.

Lemma tier_summary_shape : forall teams, teams <> [] ->
  tier_summary teams
  = map (fun i => (tier_key i, sort_counts (pick_counts i teams))) (seq 1 6).
Proof.
  intros teams Hne. unfold tier_summary. rewrite count_picks_shape by exact Hne.
  reflexivity.
Qed.

Lemma dict_set_nodup : forall {V} (d : dict V) k v,
  NoDup (map fst d) -> NoDup (map fst (dict_set d k v)).
Proof.
  induction d as [|[k' v'] d IH]; intros k v Hn; simpl.
  - repeat constructor. intros [].
  - inversion Hn as [|? ? Hnot Hn']; subst.
    destruct (String.eqb k k') eqn:E; simpl; [exact Hn|].
    apply String.eqb_neq in E. constructor; [|now apply IH].
    intros Hin. destruct (dict_set_keys _ _ _ _ Hin); [contradiction | congruence].
Qed.

Lemma dict_set_in : forall {V} (d : dict V) k v n c, NoDup (map fst d) ->
  In (n, c) (dict_set d k v) <-> (n = k /\ c = v) \/ (n <> k /\ In (n, c) d).
Proof.
  induction d as [|[k' v'] d IH]; intros k v n c Hn; simpl.
  - split.
    + intros [H | []]. injection H as -> ->. now left.
    + intros [[-> ->] | [_ []]]. now left.
  - inversion Hn as [|? ? Hnot Hn']; subst.
    destruct (String.eqb k k') eqn:E.
    + apply String.eqb_eq in E. subst k'. simpl. split.
      * intros [H | H]; [injection H as -> ->; now left|].
        right. split; [|now right]. intros ->. apply Hnot.
        now apply (in_map fst) in H.
      * intros [[-> ->] | [Hne [H | H]]]; [now left | | now right].
        injection H as -> _. congruence.
    + apply String.eqb_neq in E. simpl. rewrite (IH k v n c Hn'). split.
      * intros [H | [[-> ->] | [Hne H]]]; [|now left | now right; split; [|right]].
        injection H as <- <-. right. split; [congruence | now left].
      * intros [[-> ->] | [Hne [H | H]]]; [now right; left | now left | now right; right].
Qed.

Lemma dict_get_pair : forall {V} (d : dict V) k v, NoDup (map fst d) ->
  dict_get d k = Some v <-> In (k, v) d.
Proof.
  induction d as [|[k' v'] d IH]; intros k v Hn; simpl; [split; [discriminate | intros []]|].
  inversion Hn as [|? ? Hnot Hn']; subst.
  destruct (String.eqb k k') eqn:E.
  - apply String.eqb_eq in E. subst k'. split.
    + intros H. injection H as ->. now left.
    + intros [H | H]; [now injection H as ->|].
      exfalso. apply Hnot. now apply (in_map fst) in H.
  - apply String.eqb_neq in E. rewrite (IH k v Hn'). split; [now right|].
    intros [H | H]; [injection H; congruence | exact H].
Qed.

Lemma pick_counts_snoc : forall i ts t,
  pick_counts i (ts ++ [t]) = dict_incr (pick_counts i ts) (strip (tier_of t i)).
Proof. intros i ts t. unfold pick_counts. now rewrite fold_left_app. Qed.

(** The counters of one tier: one entry per distinct pick, holding the
    number of teams that picked it. *)
Lemma pick_counts_spec : forall i teams,
  NoDup (map fst (pick_counts i teams))
  /\ forall n c, In (n, c) (pick_counts i teams)
       <-> c = count_occ string_dec (map (fun t => strip (tier_of t i)) teams) n
           /\ (0 < c)%nat.
Proof.
  intros i. induction teams as [|t ts [Hn IH]] using rev_ind.
  - split; [constructor|]. intros n c. simpl. split; [intros [] | lia].
  - rewrite pick_counts_snoc. unfold dict_incr.
    set (m := strip (tier_of t i)). set (d := pick_counts i ts) in *.
    set (C := count_occ string_dec (map (fun t => strip (tier_of t i)) ts)) in *.
    assert (Hnew : match dict_get d m with Some k => S k | None => 1%nat end = S (C m)).
    { destruct (dict_get d m) as [k|] eqn:G.
      - apply (dict_get_pair _ _ _ Hn), IH in G as [-> _]. reflexivity.
      - destruct (C m) as [|cm] eqn:Cm; [reflexivity|]. exfalso.
        assert (Hin : In (m, S cm) d) by (apply IH; split; [symmetry; exact Cm | lia]).
        apply (dict_get_pair _ _ _ Hn) in Hin. congruence. }
    rewrite Hnew. split; [now apply dict_set_nodup|].
    intros n c. rewrite (dict_set_in _ _ _ _ _ Hn), IH.
    rewrite map_app, count_occ_app. cbn [map count_occ]. fold m. fold C.
    destruct (string_dec m n) as [<- | Hne].
    + split; [intros [[_ ->] | [[] _]]; split; [lia | lia]|].
      intros [-> _]. left. split; [reflexivity | lia].
    + rewrite Nat.add_0_r. split; [intros [[-> _] | [_ H]]; [congruence | exact H]|].
      intros H. right. split; [congruence | exact H].
Qed.

Lemma insert_count_perm : forall x l, Permutation (insert_count x l) (x :: l).
Proof.
  induction l as [|y l IH]; simpl; [reflexivity|].
  destruct (snd y <=? snd x)%nat; [reflexivity|].
  rewrite IH. apply perm_swap.
Qed.

Lemma sort_counts_perm : forall l, Permutation (sort_counts l) l.
Proof.
  induction l as [|x l IH]; simpl; [reflexivity|].
  now rewrite insert_count_perm, IH.
Qed.

Definition count_ge (a b : string * nat) : Prop := (snd b <= snd a)%nat.

Lemma insert_count_sorted : forall x l, Sorted count_ge l -> Sorted count_ge (insert_count x l).
Proof.
  intros x l H. induction H as [|y l Hl IH Hhd]; simpl.
  - repeat constructor.
  - unfold count_ge in *. destruct (snd y <=? snd x)%nat eqn:E.
    + apply Nat.leb_le in E. repeat constructor; auto.
    + apply Nat.leb_gt in E. constructor; [exact IH|].
      destruct l as [|z l]; simpl; [constructor; unfold count_ge; lia|].
      destruct (snd z <=? snd x)%nat; constructor; unfold count_ge;
        [lia | now inversion Hhd].
Qed.

Lemma sort_counts_sorted : forall l, Sorted count_ge (sort_counts l).
Proof. induction l; simpl; [constructor | now apply insert_count_sorted]. Qed.

(** X9: with at least one team, the sidebar lists "Tier 1" to "Tier 6" in
    this order; each tier's list has one entry per distinct stripped pick,
    with the number of teams that picked it in that tier, by descending
    count. *)
Theorem tier_picks_counts : forall teams, teams <> [] ->
  map fst (tier_summary teams) = ["Tier 1"; "Tier 2"; "Tier 3"; "Tier 4"; "Tier 5"; "Tier 6"]
  /\ forall tk cs, In (tk, cs) (tier_summary teams) ->
     exists i, In i (seq 1 6) /\ tk = tier_key i
     /\ Sorted (fun a b => (snd b <= snd a)%nat) cs /\ NoDup (map fst cs)
     /\ forall n c, In (n, c) cs
          <-> c = count_occ string_dec (map (fun t => strip (tier_of t i)) teams) n
              /\ (0 < c)%nat.
Proof.
  intros teams Hne. rewrite tier_summary_shape by exact Hne. split; [reflexivity|].
  intros tk cs Hin. apply in_map_iff in Hin as (i & Hi & Hiin).
  injection Hi as <- <-. exists i. split; [exact Hiin|]. split; [reflexivity|].
  destruct (pick_counts_spec i teams) as [Hn Hc].
  pose proof (sort_counts_perm (pick_counts i teams)) as Hp.
  split; [exact (sort_counts_sorted _)|]. split.
  - apply (Permutation_NoDup (Permutation_map fst (Permutation_sym Hp)) Hn).
  - intros n c. rewrite <- Hc. split; apply Permutation_in; [|symmetry]; exact Hp.
Qed.

(** ** Order of the feed *)

Lemma keep_some_perm : forall l l', Permutation l l' ->
  Permutation (keep_some l) (keep_some l').
Proof.
  intros l l' H. induction H as [|x l l' _ IH|x y l|l l' l'' _ IH1 _ IH2].
  - constructor.
  - destruct x; simpl; [now apply perm_skip | exact IH].
  - destruct x, y; simpl; try reflexivity. apply perm_swap.
  - now rewrite IH1.
Qed.

Lemma py_max_perm : forall l l', Permutation l l' -> py_max l = py_max l'.
Proof.
  intros [|x xs] [|y ys] H.
  - reflexivity.
  - apply Permutation_nil in H. discriminate.
  - symmetry in H. apply Permutation_nil in H. discriminate.
  - unfold py_max. f_equal.
    destruct (fold_max_spec xs x) as [Hin1 Hle1]. destruct (fold_max_spec ys y) as [Hin2 Hle2].
    rewrite Forall_forall in Hle1, Hle2.
    apply (Permutation_in _ H) in Hin1. apply (Permutation_in _ (Permutation_sym H)) in Hin2.
    specialize (Hle1 _ Hin2). specialize (Hle2 _ Hin1). lia.
Qed.

Lemma index_nodup_values : forall l, NoDup (map player_key l) ->
  forall q, In q (dict_values (build_index l)) <-> In q l.
Proof.
  intros l Hn q. rewrite build_index_values. split.
  - intros (l1 & l2 & -> & _). apply in_or_app. now right; left.
  - intros Hq. apply in_split in Hq as (l1 & l2 & ->). exists l1, l2. split; [reflexivity|].
    rewrite map_app in Hn. simpl in Hn. apply NoDup_remove_2 in Hn.
    apply Forall_forall. intros r Hr Heq. apply Hn. apply in_or_app. right.
    rewrite <- Heq. now apply in_map.
Qed.

Lemma index_values_nodup : forall d, index_inv d -> NoDup (dict_values d).
Proof.
  intros d [Hf Hn]. apply (NoDup_map_inv player_key).
  replace (map player_key (dict_values d)) with (map fst d); [exact Hn|].
  unfold dict_values. rewrite map_map. apply map_ext_in. intros kp Hkp.
  rewrite Forall_forall in Hf. exact (Hf kp Hkp).
Qed.

Lemma index_perm : forall l1 l2, Permutation l1 l2 -> NoDup (map player_key l1) ->
  Permutation (dict_values (build_index l1)) (dict_values (build_index l2)).
Proof.
  intros l1 l2 Hp Hn.
  assert (Hn2 : NoDup (map player_key l2)) by exact (Permutation_NoDup (Permutation_map _ Hp) Hn).
  apply NoDup_Permutation; try apply index_values_nodup, build_index_inv.
  intros q. rewrite (index_nodup_values _ Hn), (index_nodup_values _ Hn2).
  split; apply Permutation_in; [|symmetry]; exact Hp.
Qed.

Lemma score_slot_ext : forall d1 d2 w raw, (forall k, dict_get d1 k = dict_get d2 k) ->
  score_slot d1 w raw = score_slot d2 w raw.
Proof. intros d1 d2 w raw H. unfold score_slot, get_player_score. now rewrite H. Qed.

Lemma mapM_ext : forall {A B} (f g : A -> result B) l, (forall x, f x = g x) ->
  mapM f l = mapM g l.
Proof. intros A B f g l H. induction l as [|x l IH]; simpl; [reflexivity|]. now rewrite H, IH. Qed.

Lemma team_row_ext : forall d1 d2 w t, (forall k, dict_get d1 k = dict_get d2 k) ->
  team_row d1 w t = team_row d2 w t.
Proof.
  intros d1 d2 w t H. unfold team_row.
  rewrite (mapM_ext (score_slot d1 w) (score_slot d2 w)); [reflexivity|].
  intros raw. now apply score_slot_ext.
Qed.

(** Two live indexes that agree on emptiness, on the worst score and on
    every lookup give the same page. *)
Lemma page_ext : forall env1 env2 teams,
  (fetch_live_scores env1 = [] <-> fetch_live_scores env2 = []) ->
  worst_score (fetch_live_scores env1) = worst_score (fetch_live_scores env2) ->
  (forall k, dict_get (fetch_live_scores env1) k = dict_get (fetch_live_scores env2) k) ->
  cycle env1 teams = cycle env2 teams /\ page env1 teams = page env2 teams.
Proof.
  intros env1 env2 teams He Hw Hg. rewrite !page_unfold. unfold cycle. cbv zeta.
  destruct (fetch_live_scores env1) as [|kp1 d1], (fetch_live_scores env2) as [|kp2 d2];
    [split; reflexivity | pose proof (proj1 He eq_refl); discriminate
    | pose proof (proj2 He eq_refl); discriminate |].
  rewrite Hw. destruct (worst_score (kp2 :: d2)) as [w|]; [|split; reflexivity].
  rewrite (mapM_ext (team_row (kp1 :: d1) w) (team_row (kp2 :: d2) w));
    [split; reflexivity|].
  intros t. now apply team_row_ext.
Qed.

(** X4: when no two feed records share a key, the order of the feed's
    player list does not matter: a reordered feed gives the same
    leaderboard, the same error, and the same page. *)
Theorem feed_order_irrelevant : forall env1 env2 l1 l2 teams,
  feed_players env1 = Some l1 -> feed_players env2 = Some l2 ->
  Permutation l1 l2 -> NoDup (map player_key l1) ->
  cycle env1 teams = cycle env2 teams /\ page env1 teams = page env2 teams.
Proof.
  intros env1 env2 l1 l2 teams H1 H2 Hp Hn.
  assert (Hn2 : NoDup (map player_key l2)) by exact (Permutation_NoDup (Permutation_map _ Hp) Hn).
  apply page_ext; unfold fetch_live_scores; rewrite H1, H2.
  - rewrite !build_index_nil. split; intros ->;
      [apply Permutation_nil | symmetry in Hp; apply Permutation_nil]; exact Hp.
  - unfold worst_score. apply py_max_perm, keep_some_perm, Permutation_map.
    now apply index_perm.
  - intros k.
    assert (Hq : forall q, In q (dict_values (build_index l1))
                           <-> In q (dict_values (build_index l2))).
    { intros q. rewrite (index_nodup_values _ Hn), (index_nodup_values _ Hn2).
      split; apply Permutation_in; [|symmetry]; exact Hp. }
    destruct (dict_get (build_index l1) k) as [p1|] eqn:G1,
             (dict_get (build_index l2) k) as [p2|] eqn:G2; try reflexivity.
    + apply dict_get_index in G1 as [Hin Hk]; [|apply build_index_inv].
      apply Hq in Hin. rewrite <- G2. symmetry.
      apply dict_get_index; [apply build_index_inv | auto].
    + apply dict_get_index in G1 as [Hin Hk]; [|apply build_index_inv].
      apply Hq in Hin. assert (dict_get (build_index l2) k = Some p1)
        by (apply dict_get_index; [apply build_index_inv | auto]). congruence.
    + apply dict_get_index in G2 as [Hin Hk]; [|apply build_index_inv].
      apply Hq in Hin. assert (dict_get (build_index l1) k = Some p2)
        by (apply dict_get_index; [apply build_index_inv | auto]). congruence.
Qed.

(** ** Padding of to-par tokens *)

(** X10: [normalize_topar] ignores padding made of the whitespace
    [int()] skips (space, \t, \n, \v, \f, \r) around any token other than
    "E" (a padded "E" is not the even-par marker). *)
Theorem normalize_topar_padding : forall a s b,
  all_chars is_int_space a = true -> all_chars is_int_space b = true -> s <> "E" ->
  normalize_topar (Some (a ++ s ++ b)%string) = normalize_topar (Some s).
Proof.
  intros a s b Ha Hb Hs.
  rewrite !normalize_not_E by (try apply padded_not_E; assumption).
  now apply py_int_padding.
Qed.

(** * Witnesses *)


Lemma index_error_iff_no_teams_witness :
  cycle feed1 roster1 = Ok lb1 /\
  (page feed1 roster1 = PageErr (IndexError "list index out of range") <-> roster1 = [])
  /\ (roster1 <> [] -> exists s, page feed1 roster1 = PageOk (lb1, s)).
Proof.
  split; [vm_compute; reflexivity|].
  apply (index_error_iff_no_teams feed1 roster1 lb1). vm_compute. reflexivity.
Defined.

Lemma best_player_first_least_witness :
  page feed1 roster1 = PageOk (page1_lb, page1_summary) /\
  exists w rows aps pre post,
    score_teams (fetch_live_scores feed1) w roster1 = Ok (rows, aps)
    /\ page1_lb = sort_rows rows
    /\ aps = pre ++ best_player page1_summary :: post
    /\ Forall (fun x => snd (best_player page1_summary) < snd x) pre
    /\ Forall (fun x => snd (best_player page1_summary) <= snd x) post.
Proof.
  split; [vm_compute; reflexivity|].
  apply (best_player_first_least feed1 roster1 page1_lb page1_summary).
  vm_compute. reflexivity.
Defined.

Lemma totals_bounded_by_best_witness :
  page feed1 roster1 = PageOk (page1_lb, page1_summary) /\
  In (nth 0 page1_lb (mkRow "" [] [] 0)) page1_lb /\
  Forall (fun a => snd (best_player page1_summary) <= a)
    (row_adjusted (nth 0 page1_lb (mkRow "" [] [] 0)))
  /\ 5 * snd (best_player page1_summary) <= row_total (nth 0 page1_lb (mkRow "" [] [] 0)).
Proof.
  split; [vm_compute; reflexivity|]. split; [vm_compute; left; reflexivity|].
  apply (totals_bounded_by_best feed1 roster1 page1_lb page1_summary);
    vm_compute; [reflexivity | left; reflexivity].
Defined.

Lemma tier_picks_counts_witness :
  roster1 <> [] /\
  map fst (tier_summary roster1) = ["Tier 1"; "Tier 2"; "Tier 3"; "Tier 4"; "Tier 5"; "Tier 6"]
  /\ forall tk cs, In (tk, cs) (tier_summary roster1) ->
     exists i, In i (seq 1 6) /\ tk = tier_key i
     /\ Sorted (fun a b => (snd b <= snd a)%nat) cs /\ NoDup (map fst cs)
     /\ forall n c, In (n, c) cs
          <-> c = count_occ string_dec (map (fun t => strip (tier_of t i)) roster1) n
              /\ (0 < c)%nat.
Proof.
  split; [discriminate|]. apply (tier_picks_counts roster1). discriminate.
Defined.

Lemma feed_order_irrelevant_witness :
  feed_players feed1 = Some players1 /\ feed_players feed1_rev = Some (rev players1)
  /\ Permutation players1 (rev players1) /\ NoDup (map player_key players1)
  /\ cycle feed1 roster1 = cycle feed1_rev roster1
  /\ page feed1 roster1 = page feed1_rev roster1.
Proof.
  assert (Hn : NoDup (map player_key players1)).
  { vm_compute. repeat (apply NoDup_cons; [simpl; intuition discriminate|]).
    apply NoDup_nil. }
  split; [reflexivity|]. split; [reflexivity|]. split; [apply Permutation_rev|].
  split; [exact Hn|].
  apply (feed_order_irrelevant feed1 feed1_rev players1 (rev players1) roster1);
    [reflexivity | reflexivity | apply Permutation_rev | exact Hn].
Defined.

Lemma normalize_topar_padding_witness :
  all_chars is_int_space " " = true /\ all_chars is_int_space "  " = true /\ "-3" <> "E" /\
  normalize_topar (Some (" " ++ "-3" ++ "  ")%string) = normalize_topar (Some "-3").
Proof.
  split; [vm_compute; reflexivity|]. split; [vm_compute; reflexivity|].
  split; [discriminate|].
  apply normalize_topar_padding; [vm_compute; reflexivity | vm_compute; reflexivity | discriminate].
Defined.
